(** * The sales store and the order store of the point-of-sale application

    A shallow embedding of [SalesContext] (addSale, getSaleById, clearSales)
    and of [OrderContext.tsx] (addOrder, createSaleFromOrder, updateOrder,
    deleteOrder, getOrderById), followed by the properties of the order to
    sale derivation.

    Conventions of the embedding.
    - The two React providers hold their state in [useState] cells and one
      [useRef] cell; here they are the fields of one record [State], and
      every callback is a function [State -> State].  [setX (prev => f prev)]
      is the application of [f] to the field.  The [orders] that
      [deleteOrder] closes over, the sequence of the render that created the
      callback, is an argument of it; [getSaleById] and [getOrderById] are
      read off a render, on the committed sequence.
    - [setTimeout (cb, 0)] appends the callback to the queue [timers]; the
      event loop runs the oldest one later ([runTimer]).
    - Every read of the wall clock ([Date.now ()], [new Date ()]) is an
      argument of the function that performs it, in milliseconds since the
      epoch, in the order in which the source performs the reads.
    - [Date.prototype.toISOString] belongs to the platform; [toISOString]
      below computes the text it returns.
    - [localStorage] calls that the source wraps in [try]/[catch] take a
      boolean saying whether the call went through. *)

From stdpp Require Import base strings list gmap pretty.

Local Open Scope string_scope.
Local Open Scope Z_scope.
Local Open Scope list_scope.

(** ** Values *)

(** What a numeric slot of a record can hold at run time.  The declared type
    is [number], yet records come from UI code and from parsed JSON, and the
    source defends every use with [|| 0]: a slot may be missing
    ([undefined]) or hold [NaN].  Finite values are not computed with
    anywhere in the two files, only tested and copied. *)
Inductive number : Type :=
  | undefined
  | NaN
  | Num (z : Z).

(** JavaScript truthiness of a numeric slot: [undefined], [NaN] and [0] are
    falsy. *)
Definition truthy (x : number) : bool :=
  match x with
  | Num z => negb (z =? 0)
  | _ => false
  end.

(** [x || d] on numeric slots. *)
Definition num_or (x d : number) : number := if truthy x then x else d.

(** [x || d] where [x] is an optional string: [undefined] and the empty
    string are falsy. *)
Definition str_or (x : option string) (d : string) : string :=
  match x with
  | Some s => if String.eqb s "" then d else s
  | None => d
  end.

(** [!b] for an optional boolean. *)
Definition not_flag (b : option bool) : bool :=
  match b with
  | Some true => false
  | _ => true
  end.

(** [SaleItem] and [OrderItem] have the same shape. *)
Record Item : Type := mkItem {
  productId : string;
  quantity : number;
  price : number
}.

Module Sale.
Record t : Type := mk {
  id : string;
  items : list Item;
  subtotal : number;
  total : number;
  discount : number;
  paymentReceived : number;
  change : number;
  date : string;
  cashier : string;
  storeLocation : string
}.
End Sale.

(** [Omit<Sale, 'id' | 'date'>], the parameter type of [addSale]. *)
Module SaleData.
Record t : Type := mk {
  items : list Item;
  subtotal : number;
  total : number;
  discount : number;
  paymentReceived : number;
  change : number;
  cashier : string;
  storeLocation : string
}.
End SaleData.

Inductive Status : Type := pending | processing | completed | cancelled.

Inductive PaymentMethod : Type := cash | card | mobile | bank_transfer.

#[global] Instance Status_eq_dec : EqDecision Status.
Proof. solve_decision. Defined.

Definition Status_eqb (a b : Status) : bool := bool_decide (a = b).

(** The text a status has inside a template literal. *)
Definition Status_to_string (st : Status) : string :=
  match st with
  | pending => "pending"
  | processing => "processing"
  | completed => "completed"
  | cancelled => "cancelled"
  end.

Module Order.
Record t : Type := mk {
  id : string;
  customerName : string;
  contactNumber : string;
  email : string;
  deliveryAddress : string;
  items : list Item;
  subtotal : number;
  total : number;
  discount : number;
  status : Status;
  paymentMethod : PaymentMethod;
  orderDate : string;
  notes : option string;
  createdBy : option string;
  finalAmount : number;
  advancePayment : number;
  saleCreated : option bool
}.

(** [{ ...o, saleCreated: true }] *)
Definition with_saleCreated (o : t) (b : option bool) : t :=
  mk (id o) (customerName o) (contactNumber o) (email o) (deliveryAddress o)
     (items o) (subtotal o) (total o) (discount o) (status o)
     (paymentMethod o) (orderDate o) (notes o) (createdBy o)
     (finalAmount o) (advancePayment o) b.
End Order.

(** [Omit<Order, 'id' | 'orderDate'>], the parameter type of [addOrder]. *)
Module OrderData.
Record t : Type := mk {
  customerName : string;
  contactNumber : string;
  email : string;
  deliveryAddress : string;
  items : list Item;
  subtotal : number;
  total : number;
  discount : number;
  status : Status;
  paymentMethod : PaymentMethod;
  notes : option string;
  createdBy : option string;
  finalAmount : number;
  advancePayment : number;
  saleCreated : option bool
}.
End OrderData.

(** [Partial<Order>]: [None] is a field the update does not carry.  For the
    three fields that are optional in [Order] the carried value may itself
    be [undefined]. *)
Module Updates.
Record t : Type := mk {
  id : option string;
  customerName : option string;
  contactNumber : option string;
  email : option string;
  deliveryAddress : option string;
  items : option (list Item);
  subtotal : option number;
  total : option number;
  discount : option number;
  status : option Status;
  paymentMethod : option PaymentMethod;
  orderDate : option string;
  notes : option (option string);
  createdBy : option (option string);
  finalAmount : option number;
  advancePayment : option number;
  saleCreated : option (option bool)
}.

(** [{ status: st }] *)
Definition of_status (st : Status) : t :=
  mk None None None None None None None None None (Some st) None None None
     None None None None.
End Updates.

(** [{ ...order, ...updates }] *)
Definition merge (order : Order.t) (updates : Updates.t) : Order.t :=
  Order.mk
    (default (Order.id order) (Updates.id updates))
    (default (Order.customerName order) (Updates.customerName updates))
    (default (Order.contactNumber order) (Updates.contactNumber updates))
    (default (Order.email order) (Updates.email updates))
    (default (Order.deliveryAddress order) (Updates.deliveryAddress updates))
    (default (Order.items order) (Updates.items updates))
    (default (Order.subtotal order) (Updates.subtotal updates))
    (default (Order.total order) (Updates.total updates))
    (default (Order.discount order) (Updates.discount updates))
    (default (Order.status order) (Updates.status updates))
    (default (Order.paymentMethod order) (Updates.paymentMethod updates))
    (default (Order.orderDate order) (Updates.orderDate updates))
    (default (Order.notes order) (Updates.notes updates))
    (default (Order.createdBy order) (Updates.createdBy updates))
    (default (Order.finalAmount order) (Updates.finalAmount updates))
    (default (Order.advancePayment order) (Updates.advancePayment updates))
    (default (Order.saleCreated order) (Updates.saleCreated updates)).

(** ** The activity log *)

Record LogEntry : Type := mkLog {
  actor : string;
  eventType : string;
  message : string
}.

(** ** The state of the two providers *)

Record State : Type := mkState {
  sales : list Sale.t;                    (* useState<Sale[]> *)
  orders : list Order.t;                  (* useState<Order[]> *)
  saleCreationInProgress : gset string;   (* useRef<Set<string>> *)
  timers : list Order.t;                  (* pending setTimeout callbacks *)
  activity : list LogEntry;               (* calls made to logActivity *)
  storedSales : option (list Sale.t)      (* localStorage item 'sales' *)
}.

Definition setSales (f : list Sale.t → list Sale.t) (s : State) : State :=
  mkState (f (sales s)) (orders s) (saleCreationInProgress s) (timers s)
          (activity s) (storedSales s).

Definition setOrders (f : list Order.t → list Order.t) (s : State) : State :=
  mkState (sales s) (f (orders s)) (saleCreationInProgress s) (timers s)
          (activity s) (storedSales s).

Definition setInProgress (f : gset string → gset string) (s : State) : State :=
  mkState (sales s) (orders s) (f (saleCreationInProgress s)) (timers s)
          (activity s) (storedSales s).

Definition setTimers (f : list Order.t → list Order.t) (s : State) : State :=
  mkState (sales s) (orders s) (saleCreationInProgress s) (f (timers s))
          (activity s) (storedSales s).

Definition setStoredSales (v : option (list Sale.t)) (s : State) : State :=
  mkState (sales s) (orders s) (saleCreationInProgress s) (timers s)
          (activity s) v.

(** Modelled from the spec: [logActivity] comes from [UserContext], which is
    not among the sources.  The logger "records (actor, eventType, message)
    tuples; failure is not observable to callers": the call returns, and
    what the order store can be held to is the sequence of calls it made.
    What [deleteOrder] does around a call that throws all the same is part
    of [deleteOrder]. *)
Definition logActivity (a e m : string) (s : State) : State :=
  mkState (sales s) (orders s) (saleCreationInProgress s) (timers s)
          (activity s ++ [mkLog a e m]) (storedSales s).

(** The state of the providers when they mount: each sequence is the parsed
    [localStorage] item when there is one and empty otherwise; the guard set
    is empty and nothing is scheduled. *)
Definition initialState (savedSales : option (list Sale.t))
    (savedOrders : option (list Order.t)) : State :=
  mkState (default [] savedSales) (default [] savedOrders) ∅ [] [] savedSales.

(** The object literal [sale] of [createSaleFromOrder].  It carries a [date]
    that the parameter type of [addSale] does not declare. *)
Module SalePayload.
Record t : Type := mk {
  items : list Item;
  subtotal : number;
  total : number;
  discount : number;
  paymentReceived : number;
  change : number;
  cashier : string;
  storeLocation : string;
  date : string
}.

(** The payload seen at type [Omit<Sale, 'id' | 'date'>].  [addSale]
    spreads its argument and then writes [id] and [date] itself, so the
    [date] of the payload never reaches the stored record. *)
Definition data (p : t) : SaleData.t :=
  SaleData.mk (items p) (subtotal p) (total p) (discount p)
              (paymentReceived p) (change p) (cashier p) (storeLocation p).
End SalePayload.

(** An effectful [Array.prototype.map]: the callback may log and schedule
    while it computes the new element; elements are visited left to right. *)
Fixpoint mapWithEffects {A B : Type} (f : A → State → B * State)
    (l : list A) (s : State) : list B * State :=
  match l with
  | [] => ([], s)
  | x :: l' =>
      let '(y, s1) := f x s in
      let '(ys, s2) := mapWithEffects f l' s1 in
      (y :: ys, s2)
  end.

(** ** The platform's clock text

    [new Date (t).toISOString ()] for a reading [t] of the clock:
    [YYYY-MM-DDTHH:mm:ss.sssZ] in UTC, with a signed six-digit year outside
    0..9999.  Readings of the clock are within the range of [Date], where
    the method does not throw. *)

Fixpoint zeros (k : nat) : string :=
  match k with
  | O => ""
  | S k' => "0" +:+ zeros k'
  end.

Definition padStart (width : nat) (n : Z) : string :=
  let digits := pretty n in
  zeros (width - String.length digits) +:+ digits.

(** Day number since 1970-01-01 to (year, month, day) in the proleptic
    Gregorian calendar. *)
Definition civilFromDays (days : Z) : Z * Z * Z :=
  let z := days + 719468 in
  let era := z / 146097 in
  let doe := z - era * 146097 in
  let yoe := (doe - doe / 1460 + doe / 36524 - doe / 146096) / 365 in
  let doy := doe - (365 * yoe + yoe / 4 - yoe / 100) in
  let mp := (5 * doy + 2) / 153 in
  let d := doy - (153 * mp + 2) / 5 + 1 in
  let m := if mp <? 10 then mp + 3 else mp - 9 in
  let y := yoe + era * 400 + (if m <=? 2 then 1 else 0) in
  (y, m, d).

Definition toISOString (t : Z) : string :=
  let '(y, m, d) := civilFromDays (t / 86400000) in
  let msOfDay := t mod 86400000 in
  let year :=
    if (0 <=? y) && (y <=? 9999) then padStart 4 y
    else (if y <? 0 then "-" else "+") +:+ padStart 6 (Z.abs y) in
  year +:+ "-" +:+ padStart 2 m +:+ "-" +:+ padStart 2 d
  +:+ "T" +:+ padStart 2 (msOfDay / 3600000)
  +:+ ":" +:+ padStart 2 (msOfDay / 60000 mod 60)
  +:+ ":" +:+ padStart 2 (msOfDay / 1000 mod 60)
  +:+ "." +:+ padStart 3 (msOfDay mod 1000) +:+ "Z".

(** ** SalesContext *)

(** [item => ({ ...item, quantity: item.quantity || 0, price: item.price || 0 })] *)
Definition fillItem (item : Item) : Item :=
  mkItem (productId item)
         (num_or (quantity item) (Num 0))
         (num_or (price item) (Num 0)).

(** The record [newSale] built by [addSale]; [tId] is the reading of
    [Date.now ()] and [tDate] that of [new Date ()]. *)
Definition newSale (tId tDate : Z) (saleData : SaleData.t) : Sale.t :=
  Sale.mk
    ("SALE-" +:+ pretty tId)
    (map fillItem (SaleData.items saleData))
    (num_or (SaleData.subtotal saleData) (Num 0))
    (num_or (SaleData.total saleData) (Num 0))
    (num_or (SaleData.discount saleData) (Num 0))
    (num_or (SaleData.paymentReceived saleData) (Num 0))
    (num_or (SaleData.change saleData) (Num 0))
    (toISOString tDate)
    (SaleData.cashier saleData)
    (SaleData.storeLocation saleData).

(** [persisted] says whether [localStorage.setItem] returned; when it
    throws, the inner [catch] logs to the console and the updater still
    returns the extended sequence.  Building [newSale] cannot throw on an
    argument of the declared type, so the outer [catch] is never taken. *)
Definition addSale (tId tDate : Z) (persisted : bool) (saleData : SaleData.t)
    (s : State) : State :=
  let updatedSales := sales s ++ [newSale tId tDate saleData] in
  let s := if persisted then setStoredSales (Some updatedSales) s else s in
  setSales (λ _, updatedSales) s.

Definition getSaleById (id : string) (s : State) : option Sale.t :=
  List.find (λ sale, String.eqb (Sale.id sale) id) (sales s).

(** [removed] says whether [localStorage.removeItem] returned; [setSales]
    has run before it either way. *)
Definition clearSales (removed : bool) (s : State) : State :=
  let s := setSales (λ _, []) s in
  if removed then setStoredSales None s else s.

(** ** OrderContext *)

Definition newOrder (tId tDate : Z) (orderData : OrderData.t) : Order.t :=
  Order.mk
    ("ORD-" +:+ pretty tId)
    (OrderData.customerName orderData)
    (OrderData.contactNumber orderData)
    (OrderData.email orderData)
    (OrderData.deliveryAddress orderData)
    (OrderData.items orderData)
    (OrderData.subtotal orderData)
    (OrderData.total orderData)
    (OrderData.discount orderData)
    (OrderData.status orderData)
    (OrderData.paymentMethod orderData)
    (toISOString tDate)
    (OrderData.notes orderData)
    (OrderData.createdBy orderData)
    (OrderData.finalAmount orderData)
    (OrderData.advancePayment orderData)
    (Some false).

Definition addOrder (tId tDate : Z) (orderData : OrderData.t) (s : State)
    : State :=
  let newOrder := newOrder tId tDate orderData in
  let s := setOrders (λ prev, prev ++ [newOrder]) s in
  logActivity (str_or (Order.createdBy newOrder) "system") "ORDER_CREATED"
    ("Nouvelle commande " +:+ Order.id newOrder +:+ " créée") s.

(** The literal [sale]; [tSale] is the reading of its [new Date ()]. *)
Definition salePayload (tSale : Z) (order : Order.t) : SalePayload.t :=
  SalePayload.mk
    (Order.items order)
    (Order.total order)
    (Order.finalAmount order)
    (num_or (Order.discount order) (Num 0))
    (num_or (Order.advancePayment order) (Order.finalAmount order))
    (Num 0)
    (str_or (Order.createdBy order) "System")
    "UP2DATE FASHION"
    (toISOString tSale).

(** [o => o.id === order.id ? { ...o, saleCreated: true } : o] *)
Definition markSaleCreated (order o : Order.t) : Order.t :=
  if String.eqb (Order.id o) (Order.id order)
  then Order.with_saleCreated o (Some true)
  else o.

(** [createSaleFromOrder] as a function of the [addSale] it closes over (the
    provider takes it from [useSales ()]). *)
Definition createSaleFromOrderWith (addSale : SalePayload.t → State → State)
    (tSale : Z) (order : Order.t) (s : State) : State :=
  if bool_decide (Order.id order ∈ saleCreationInProgress s) then s
  else
    let s := setInProgress (λ g, g ∪ {[Order.id order]}) s in
    let sale := salePayload tSale order in
    let s := addSale sale s in
    let s :=
      logActivity (str_or (Order.createdBy order) "system")
        "SALE_CREATED_FROM_ORDER"
        ("Vente créée à partir de la commande " +:+ Order.id order) s in
    let s := setOrders (map (markSaleCreated order)) s in
    setInProgress (λ g, g ∖ {[Order.id order]}) s.

(** With the [addSale] of the sales provider; [tId], [tDate] and [persisted]
    are what that call of [addSale] reads from its environment. *)
Definition createSaleFromOrder (tSale tId tDate : Z) (persisted : bool)
    (order : Order.t) (s : State) : State :=
  createSaleFromOrderWith
    (λ sale, addSale tId tDate persisted (SalePayload.data sale))
    tSale order s.

(** [updates.status && updates.status !== order.status]; the four status
    strings are truthy. *)
Definition statusChanges (updates : Updates.t) (order : Order.t) : bool :=
  match Updates.status updates with
  | Some st => negb (Status_eqb st (Order.status order))
  | None => false
  end.

(** [updates.status === 'completed' && !order.saleCreated] *)
Definition needsSale (updates : Updates.t) (order : Order.t) : bool :=
  match Updates.status updates with
  | Some st => Status_eqb st completed && not_flag (Order.saleCreated order)
  | None => false
  end.

(** The template literal of the status entry. *)
Definition statusUpdatedMessage (updates : Updates.t) (order : Order.t)
    : string :=
  "Statut de la commande " +:+ Order.id order +:+ " mis à jour: "
  +:+ Status_to_string (Order.status order) +:+ " → "
  +:+ Status_to_string (default (Order.status order) (Updates.status updates)).

(** The callback that [updateOrder] maps over [prev]. *)
Definition updateOne (id : string) (updates : Updates.t) (order : Order.t)
    (s : State) : Order.t * State :=
  if String.eqb (Order.id order) id then
    let updatedOrder := merge order updates in
    let s :=
      if statusChanges updates order then
        let s :=
          logActivity (str_or (Order.createdBy order) "system")
            "ORDER_STATUS_UPDATED" (statusUpdatedMessage updates order) s in
        if needsSale updates order
        then setTimers (λ queue, queue ++ [updatedOrder]) s
        else s
      else s in
    (updatedOrder, s)
  else (order, s).

Definition updateOrder (id : string) (updates : Updates.t) (s : State)
    : State :=
  let '(updatedOrders, s) := mapWithEffects (updateOne id updates) (orders s) s in
  setOrders (λ _, updatedOrders) s.

(** How a call of [logActivity] ends.  The contract of the logger is that it
    returns; [LogThrows] is a logger that breaks it. *)
Inductive LogOutcome : Type := LogReturns | LogThrows.

(** [rendered] is the [orders] the callback closes over: the sequence of the
    render that created it, which is the current sequence when a commit
    separates the call from the last mutation.  [outcome] is how the call of
    [logActivity] ends when one is made: nothing catches what it throws, so
    that the exception leaves [deleteOrder] before [setOrders]. *)
Definition deleteOrder (rendered : list Order.t) (outcome : LogOutcome)
    (id : string) (s : State) : State :=
  let order := List.find (λ o, String.eqb (Order.id o) id) rendered in
  match order with
  | Some order =>
      let s :=
        logActivity (str_or (Order.createdBy order) "system") "ORDER_DELETED"
          ("Commande " +:+ Order.id order +:+ " supprimée") s in
      match outcome with
      | LogReturns =>
          setOrders
            (List.filter (λ order, negb (String.eqb (Order.id order) id))) s
      | LogThrows => s
      end
  | None =>
      setOrders (List.filter (λ order, negb (String.eqb (Order.id order) id))) s
  end.

(** Read off a render: the [orders] it closes over is the committed
    sequence. *)
Definition getOrderById (id : string) (s : State) : option Order.t :=
  List.find (λ order, String.eqb (Order.id order) id) (orders s).

(** ** The event loop *)

(** The oldest pending timer fires: its callback is
    [() => createSaleFromOrder (updatedOrder)]. *)
Definition runTimer (tSale tId tDate : Z) (persisted : bool) (s : State)
    : State :=
  match timers s with
  | [] => s
  | order :: rest =>
      createSaleFromOrder tSale tId tDate persisted order
        (setTimers (λ _, rest) s)
  end.

(** What can happen to the two stores: a call of one of the exported
    functions, or a timer firing.  The logger keeps its contract.  A call of
    [deleteOrder] comes with the sequence its callback closes over, which is
    any sequence here: more than the renders can provide, and enough for
    what holds of every state. *)
Inductive Event : Type :=
  | AddSale (tId tDate : Z) (persisted : bool) (saleData : SaleData.t)
  | ClearSales (removed : bool)
  | AddOrder (tId tDate : Z) (orderData : OrderData.t)
  | UpdateOrder (id : string) (updates : Updates.t)
  | DeleteOrder (rendered : list Order.t) (id : string)
  | TimerFires (tSale tId tDate : Z) (persisted : bool).

Definition step (s : State) (e : Event) : State :=
  match e with
  | AddSale tId tDate persisted saleData => addSale tId tDate persisted saleData s
  | ClearSales removed => clearSales removed s
  | AddOrder tId tDate orderData => addOrder tId tDate orderData s
  | UpdateOrder id updates => updateOrder id updates s
  | DeleteOrder rendered id => deleteOrder rendered LogReturns id s
  | TimerFires tSale tId tDate persisted => runTimer tSale tId tDate persisted s
  end.

Definition run (es : list Event) (s : State) : State := fold_left step es s.

(** The states the application can be in. *)
Inductive reachable : State → Prop :=
  | reachable_init savedSales savedOrders :
      reachable (initialState savedSales savedOrders)
  | reachable_step s e : reachable s → reachable (step s e).

(** * Vocabulary of the statements *)

(** The stored value of a numeric field as the specification words it: the
    input when the input is truthy, [0] when it is absent or falsy. *)
Definition defaultsToZero (input stored : number) : Prop :=
  (truthy input = true → stored = input)
  ∧ (truthy input = false → stored = Num 0).

(** An item as stored against the item as given. *)
Definition itemStoredFrom (item stored : Item) : Prop :=
  productId stored = productId item
  ∧ defaultsToZero (quantity item) (quantity stored)
  ∧ defaultsToZero (price item) (price stored).

(** The id of a sale as a function of the reading of [Date.now ()]. *)
Definition saleIdAt (tId : Z) : string := "SALE-" +:+ pretty tId.

(** One call of [addSale] with what it reads from its environment. *)
Record AddSaleCall : Type := mkCall {
  call_now : Z;            (* Date.now () *)
  call_date : Z;           (* new Date () *)
  call_persisted : bool;   (* localStorage.setItem returned *)
  call_data : SaleData.t
}.

Definition addSales (calls : list AddSaleCall) (s : State) : State :=
  fold_left
    (λ s c, addSale (call_now c) (call_date c) (call_persisted c) (call_data c) s)
    calls s.

(** What [{ ...order, ...updates }] holds in one field: the value the update
    carries when it carries one, the previous value otherwise. *)
Definition overwrites {A : Type} (old : A) (carried : option A) (new : A)
    : Prop :=
  match carried with
  | Some v => new = v
  | None => new = old
  end.

(** [o'] is the shallow merge of [u] onto [o]. *)
Definition shallowMerge (o : Order.t) (u : Updates.t) (o' : Order.t) : Prop :=
  overwrites (Order.id o) (Updates.id u) (Order.id o')
  ∧ overwrites (Order.customerName o) (Updates.customerName u)
               (Order.customerName o')
  ∧ overwrites (Order.contactNumber o) (Updates.contactNumber u)
               (Order.contactNumber o')
  ∧ overwrites (Order.email o) (Updates.email u) (Order.email o')
  ∧ overwrites (Order.deliveryAddress o) (Updates.deliveryAddress u)
               (Order.deliveryAddress o')
  ∧ overwrites (Order.items o) (Updates.items u) (Order.items o')
  ∧ overwrites (Order.subtotal o) (Updates.subtotal u) (Order.subtotal o')
  ∧ overwrites (Order.total o) (Updates.total u) (Order.total o')
  ∧ overwrites (Order.discount o) (Updates.discount u) (Order.discount o')
  ∧ overwrites (Order.status o) (Updates.status u) (Order.status o')
  ∧ overwrites (Order.paymentMethod o) (Updates.paymentMethod u)
               (Order.paymentMethod o')
  ∧ overwrites (Order.orderDate o) (Updates.orderDate u) (Order.orderDate o')
  ∧ overwrites (Order.notes o) (Updates.notes u) (Order.notes o')
  ∧ overwrites (Order.createdBy o) (Updates.createdBy u) (Order.createdBy o')
  ∧ overwrites (Order.finalAmount o) (Updates.finalAmount u)
               (Order.finalAmount o')
  ∧ overwrites (Order.advancePayment o) (Updates.advancePayment u)
               (Order.advancePayment o')
  ∧ overwrites (Order.saleCreated o) (Updates.saleCreated u)
               (Order.saleCreated o').

(** The three things [updateOne] does with one order, taken apart: the
    element it returns, the entries it logs, the derivations it schedules. *)
Definition updated (id : string) (u : Updates.t) (o : Order.t) : Order.t :=
  if String.eqb (Order.id o) id then merge o u else o.

Definition logged (id : string) (u : Updates.t) (o : Order.t)
    : list LogEntry :=
  if String.eqb (Order.id o) id && statusChanges u o
  then [mkLog (str_or (Order.createdBy o) "system") "ORDER_STATUS_UPDATED"
              (statusUpdatedMessage u o)]
  else [].

Definition scheduled (id : string) (u : Updates.t) (o : Order.t)
    : list Order.t :=
  if String.eqb (Order.id o) id && statusChanges u o && needsSale u o
  then [merge o u]
  else [].

(** Some order of the sequence has the id. *)
Definition holdsId (id : string) (l : list Order.t) : Prop :=
  ∃ o, o ∈ l ∧ Order.id o = id.

(** What [createSaleFromOrder] does once its [addSale] has returned: it
    logs, marks the orders and takes the id out of the guard set. *)
Definition finishDerivation (order : Order.t) (s : State) : State :=
  setInProgress (λ g, g ∖ {[Order.id order]})
    (setOrders (map (markSaleCreated order))
       (logActivity (str_or (Order.createdBy order) "system")
          "SALE_CREATED_FROM_ORDER"
          ("Vente créée à partir de la commande " +:+ Order.id order) s)).

(** [r] is [x || d] for a numeric slot [x]. *)
Definition numOrElse (x d r : number) : Prop :=
  (truthy x = true → r = x) ∧ (truthy x = false → r = d).

(** [r] is [x || d] for an optional string [x]. *)
Definition strOrElse (x : option string) (d r : string) : Prop :=
  (∀ c, x = Some c → c ≠ "" → r = c)
  ∧ (x = None ∨ x = Some "" → r = d).

(** The order carries every field of the payload of [addOrder] except
    [saleCreated]. *)
Definition carries (d : OrderData.t) (o : Order.t) : Prop :=
  Order.customerName o = OrderData.customerName d
  ∧ Order.contactNumber o = OrderData.contactNumber d
  ∧ Order.email o = OrderData.email d
  ∧ Order.deliveryAddress o = OrderData.deliveryAddress d
  ∧ Order.items o = OrderData.items d
  ∧ Order.subtotal o = OrderData.subtotal d
  ∧ Order.total o = OrderData.total d
  ∧ Order.discount o = OrderData.discount d
  ∧ Order.status o = OrderData.status d
  ∧ Order.paymentMethod o = OrderData.paymentMethod d
  ∧ Order.notes o = OrderData.notes d
  ∧ Order.createdBy o = OrderData.createdBy d
  ∧ Order.finalAmount o = OrderData.finalAmount d
  ∧ Order.advancePayment o = OrderData.advancePayment d.

(** The id of an order as a function of the reading of [Date.now ()]. *)
Definition orderIdAt (tId : Z) : string := "ORD-" +:+ pretty tId.

(** * Example data

    The order of the specification's example, created at one reading of the
    clock, and variations of it. *)

Definition t0 : Z := 1700000000000.

Definition exampleItem : Item := mkItem "p1" (Num 2) (Num 10).

Definition exampleData : OrderData.t :=
  OrderData.mk "A" "" "" "" [exampleItem] (Num 20) (Num 20) (Num 2) pending
               cash None None (Num 18) (Num 0) None.

Definition exampleOrder : Order.t := newOrder t0 t0 exampleData.

Definition exampleState : State :=
  addOrder t0 t0 exampleData (initialState None None).

(** The same order with a [finalAmount] that is not a number. *)
Definition nanData : OrderData.t :=
  OrderData.mk "A" "" "" "" [exampleItem] (Num 20) (Num 20) (Num 2) pending
               cash None None NaN (Num 0) None.

Definition nanState : State :=
  addOrder t0 t0 nanData (initialState None None).

(** Another customer's order. *)
Definition otherData : OrderData.t :=
  OrderData.mk "B" "" "" "" [exampleItem] (Num 20) (Num 20) (Num 0) pending
               card None (Some "Ann") (Num 20) (Num 5) (Some true).

Definition exampleSaleData : SaleData.t :=
  SaleData.mk [exampleItem] (Num 20) (Num 18) (Num 2) (Num 18) (Num 0) "Ann"
              "UP2DATE FASHION".

(** The order is completed, reopened and completed again before any timer
    fires; then the two timers fire, 5 ms after the order was created. *)
Definition completedTwice : list Event :=
  [ UpdateOrder (orderIdAt t0) (Updates.of_status completed);
    UpdateOrder (orderIdAt t0) (Updates.of_status processing);
    UpdateOrder (orderIdAt t0) (Updates.of_status completed) ].

Definition twoTimersFire : list Event :=
  [ TimerFires (t0 + 5) (t0 + 5) (t0 + 5) true;
    TimerFires (t0 + 5) (t0 + 5) (t0 + 5) true ].

(** * Vocabulary of the further properties *)

(** The sales provider mounts again on what [localStorage] holds (the
    initialiser of [useState<Sale[]>]); the order sequence it mounts beside
    is whatever was saved for it. *)
Definition reload (s : State) (savedOrders : option (list Order.t)) : State :=
  initialState (storedSales s) savedOrders.

(** The persisted item ['sales'] parses back to the sequence in memory. *)
Definition inSync (s : State) : Prop :=
  default [] (storedSales s) = sales s.


Definition isClearSales (e : Event) : bool :=
  match e with
  | ClearSales _ => true
  | _ => false
  end.

(** A call of one of the three mutators the order provider exports. *)
Definition isOrderCall (e : Event) : bool :=
  match e with
  | AddOrder _ _ _ | UpdateOrder _ _ | DeleteOrder _ _ => true
  | _ => false
  end.

(** The sale that a derivation for [order] appends. *)
Definition derivedSale (tSale tId tDate : Z) (order : Order.t) : Sale.t :=
  newSale tId tDate (SalePayload.data (salePayload tSale order)).

(** [sale] is the first record of [l] whose id is [id]. *)
Definition firstWithId (id : string) (l : list Sale.t) (sale : Sale.t) : Prop :=
  ∃ i, l !! i = Some sale
       ∧ Sale.id sale = id
       ∧ ∀ j other, (j < i)%nat → l !! j = Some other → Sale.id other ≠ id.

(** Why [updateOrder id u] scheduled the derivation of [m]: some order with
    the id had a falsy saleCreated and a status other than completed, the
    update carries the status completed, and [m] is that order as updated. *)
Definition scheduledFor (id : string) (u : Updates.t) (s : State)
    (m : Order.t) : Prop :=
  ∃ o, o ∈ orders s
       ∧ Order.id o = id
       ∧ m = merge o u
       ∧ Updates.status u = Some completed
       ∧ Order.status o ≠ completed
       ∧ not_flag (Order.saleCreated o) = true.

(** Why [updateOrder id u] logged the entry [e]: some order with the id had
    a status other than the one the update carries. *)
Definition loggedFor (id : string) (u : Updates.t) (s : State)
    (e : LogEntry) : Prop :=
  ∃ o st, o ∈ orders s
          ∧ Order.id o = id
          ∧ Updates.status u = Some st
          ∧ st ≠ Order.status o
          ∧ eventType e = "ORDER_STATUS_UPDATED"
          ∧ actor e = str_or (Order.createdBy o) "system".

(** A sale recorded at the counter while the example order exists. *)
Definition counterState : State := addSale t0 t0 true exampleSaleData exampleState.

(** The example order completed, its timer pending. *)
Definition pendingState : State :=
  updateOrder (orderIdAt t0) (Updates.of_status completed) exampleState.

(** A call of one of the two mutators the sales provider exports. *)
Definition isSalesCall (e : Event) : bool :=
  match e with
  | AddSale _ _ _ _ | ClearSales _ => true
  | _ => false
  end.

(** [{ saleCreated: true }] *)
Definition saleCreatedTrue : Updates.t :=
  Updates.mk None None None None None None None None None None None None None
             None None None (Some (Some true)).


(** [{ id: 'ORD-0' }] *)
Definition renameUpdate : Updates.t :=
  Updates.mk (Some "ORD-0") None None None None None None None None None None
             None None None None None None.

(** What a timer that fires reads from its environment. *)
Record Firing : Type := mkFiring {
  fire_sale : Z;           (* new Date () of the payload *)
  fire_now : Z;            (* Date.now () of addSale *)
  fire_date : Z;           (* new Date () of addSale *)
  fire_persisted : bool    (* localStorage.setItem returned *)
}.

Definition fire (f : Firing) (s : State) : State :=
  runTimer (fire_sale f) (fire_now f) (fire_date f) (fire_persisted f) s.

(** The oldest timers fire one after the other, one per element of [fs]. *)
Definition fireTimers (fs : list Firing) (s : State) : State :=
  fold_left (λ s f, fire f s) fs s.

(** [y] is [x], or [x] with saleCreated true. *)
Definition sameOrFlagged (x y : Order.t) : Prop :=
  y = x ∨ y = Order.with_saleCreated x (Some true).

(** Every order that has the id has saleCreated true. *)
Definition settled (id : string) (s : State) : Prop :=
  Forall (λ o, Order.id o = id → Order.saleCreated o = Some true) (orders s).

(** The event can put no order with a falsy saleCreated under the id: an
    update carries neither saleCreated nor id, and an order is added under
    another id. *)
Definition keepsSettled (id : string) (e : Event) : bool :=
  match e with
  | UpdateOrder _ u =>
      match Updates.saleCreated u, Updates.id u with
      | None, None => true
      | _, _ => false
      end
  | AddOrder tId _ _ => negb (String.eqb (orderIdAt tId) id)
  | _ => true
  end.

Definition atFive : Firing := mkFiring (t0 + 5) (t0 + 5) (t0 + 5) true.

(** * Properties *)

(** Unfolds the writes to the fields of the state. *)
Ltac unfold_setters :=
  unfold setInProgress, setOrders, setTimers, logActivity, addSale, setSales,
    setStoredSales; simpl.

(** Closes [a ≠ b] for two closed terms that evaluate to different values. *)
Ltac differ_by_evaluation :=
  let H := fresh "Heq" in intros H; vm_compute in H; discriminate H.

(** What [addSale] does to each field of the state. *)
Create Rewrite HintDb store.

(** ** The clock text at known instants *)

Example toISOString_epoch : toISOString 0 = "1970-01-01T00:00:00.000Z".
Proof. reflexivity. Qed.

Example toISOString_before_epoch :
  toISOString (-1) = "1969-12-31T23:59:59.999Z".
Proof. reflexivity. Qed.

Example toISOString_leap_day :
  toISOString 1709251199999 = "2024-02-29T23:59:59.999Z".
Proof. by vm_compute. Qed.

Example toISOString_t0 : toISOString t0 = "2023-11-14T22:13:20.000Z".
Proof. by vm_compute. Qed.

(** ** Truthiness *)

Lemma truthy_false_iff (x : number) :
  truthy x = false ↔ x = undefined ∨ x = NaN ∨ x = Num 0.
Proof.
  destruct x as [| |z]; simpl.
  - naive_solver.
  - naive_solver.
  - rewrite negb_false_iff, Z.eqb_eq. split.
    + intros ->. by right; right.
    + intros [?|[?|[= ->]]]; done.
Qed.

Lemma num_or_truthy (x d : number) : truthy x = true → num_or x d = x.
Proof. unfold num_or. by intros ->. Qed.

Lemma num_or_falsy (x d : number) : truthy x = false → num_or x d = d.
Proof. unfold num_or. by intros ->. Qed.

Lemma num_or_zero_defaults (x : number) : defaultsToZero x (num_or x (Num 0)).
Proof. split; [apply num_or_truthy | apply num_or_falsy]. Qed.

Lemma fillItem_stored (item : Item) : itemStoredFrom item (fillItem item).
Proof. repeat split; simpl; auto using num_or_truthy, num_or_falsy. Qed.

(** ** The sales store *)

Lemma addSale_sales tId tDate persisted saleData s :
  sales (addSale tId tDate persisted saleData s)
  = sales s ++ [newSale tId tDate saleData].
Proof. unfold addSale. by destruct persisted. Qed.

Lemma addSale_orders tId tDate persisted saleData s :
  orders (addSale tId tDate persisted saleData s) = orders s.
Proof. unfold addSale. by destruct persisted. Qed.

Lemma addSale_inProgress tId tDate persisted saleData s :
  saleCreationInProgress (addSale tId tDate persisted saleData s)
  = saleCreationInProgress s.
Proof. unfold addSale. by destruct persisted. Qed.

Lemma addSale_timers tId tDate persisted saleData s :
  timers (addSale tId tDate persisted saleData s) = timers s.
Proof. unfold addSale. by destruct persisted. Qed.

Lemma addSale_activity tId tDate persisted saleData s :
  activity (addSale tId tDate persisted saleData s) = activity s.
Proof. unfold addSale. by destruct persisted. Qed.

#[global] Hint Rewrite addSale_sales addSale_orders addSale_inProgress
  addSale_timers addSale_activity : store.

(** C4.  [addSale] appends one record to the sales sequence.  In it each of
    subtotal, total, discount, paymentReceived and change is the input value
    when that value is truthy and [0] when it is absent or falsy; each item
    keeps its productId and has quantity and price treated the same way;
    cashier and storeLocation are the input's. *)
Theorem addSale_stores_defaulted_record tId tDate persisted saleData s :
  ∃ sale : Sale.t,
    sales (addSale tId tDate persisted saleData s) = sales s ++ [sale]
    ∧ defaultsToZero (SaleData.subtotal saleData) (Sale.subtotal sale)
    ∧ defaultsToZero (SaleData.total saleData) (Sale.total sale)
    ∧ defaultsToZero (SaleData.discount saleData) (Sale.discount sale)
    ∧ defaultsToZero (SaleData.paymentReceived saleData)
                     (Sale.paymentReceived sale)
    ∧ defaultsToZero (SaleData.change saleData) (Sale.change sale)
    ∧ Forall2 itemStoredFrom (SaleData.items saleData) (Sale.items sale)
    ∧ Sale.cashier sale = SaleData.cashier saleData
    ∧ Sale.storeLocation sale = SaleData.storeLocation saleData.
Proof.
  exists (newSale tId tDate saleData).
  split; [apply addSale_sales|].
  repeat (split; [apply num_or_zero_defaults|]).
  split; [|done].
  simpl. induction (SaleData.items saleData) as [|item items IH]; simpl.
  - constructor.
  - constructor; [apply fillItem_stored | exact IH].
Qed.

(** C8.  After [clearSales] the sales sequence is empty and [getSaleById]
    finds nothing, whatever the id and whether or not the persisted copy
    could be removed. *)
Theorem clearSales_forgets_every_sale removed s id :
  sales (clearSales removed s) = []
  ∧ getSaleById id (clearSales removed s) = None.
Proof.
  assert (Hempty : sales (clearSales removed s) = [])
    by (unfold clearSales; by destruct removed).
  split; [exact Hempty|].
  unfold getSaleById. by rewrite Hempty.
Qed.

Lemma newSale_id tId tDate saleData :
  Sale.id (newSale tId tDate saleData) = saleIdAt tId.
Proof. reflexivity. Qed.

Lemma saleIdAt_inj : Inj (=) (=) saleIdAt.
Proof.
  intros t1 t2 Heq. unfold saleIdAt in Heq. simpl in Heq.
  injection Heq as Heq. by apply (inj pretty).
Qed.

Lemma newSale_id_eq_iff t1 d1 x1 t2 d2 x2 :
  Sale.id (newSale t1 d1 x1) = Sale.id (newSale t2 d2 x2) ↔ t1 = t2.
Proof.
  rewrite !newSale_id. split; [apply saleIdAt_inj | by intros ->].
Qed.

Lemma addSales_sales calls s :
  sales (addSales calls s)
  = sales s ++ map (λ c, newSale (call_now c) (call_date c) (call_data c)) calls.
Proof.
  revert s. induction calls as [|c calls IH]; intros s; simpl.
  - by rewrite app_nil_r.
  - unfold addSales in IH. rewrite IH, addSale_sales, <- app_assoc. done.
Qed.

(** C5 as the code has it.  Each call of [addSale] gives its record the id
    SALE- followed by its reading of [Date.now ()].  Let the ids of the sales
    sequence be pairwise distinct: calls whose readings are pairwise
    distinct, and none of which reads a millisecond whose id is already in
    the sequence, leave a sequence whose ids are pairwise distinct. *)
Theorem addSale_ids_distinct_when_clock_readings_differ calls s :
  NoDup (map Sale.id (sales s)) →
  NoDup (map call_now calls) →
  Forall (λ c, saleIdAt (call_now c) ∉ map Sale.id (sales s)) calls →
  map Sale.id (sales (addSales calls s))
  = map Sale.id (sales s) ++ map saleIdAt (map call_now calls)
  ∧ NoDup (map Sale.id (sales (addSales calls s))).
Proof.
  intros Hold Hclock Hnew.
  assert (Hids : map Sale.id (sales (addSales calls s))
                 = map Sale.id (sales s) ++ map saleIdAt (map call_now calls)).
  { rewrite addSales_sales, map_app, !map_map. done. }
  split; [exact Hids|]. rewrite Hids.
  apply NoDup_app. split; [exact Hold|]. split.
  - intros id Hin Hin'.
    rewrite map_map in Hin'. apply list_elem_of_fmap in Hin' as (c & -> & Hc).
    rewrite Forall_forall in Hnew. by apply (Hnew c Hc).
  - pose proof saleIdAt_inj as Hinj. by apply (NoDup_fmap_2 saleIdAt).
Qed.

(** ** The order store: updateOrder *)

Lemma overwrites_default {A : Type} (old : A) (carried : option A) :
  overwrites old carried (default old carried).
Proof. by destruct carried. Qed.

Lemma merge_is_shallowMerge o u : shallowMerge o u (merge o u).
Proof. unfold shallowMerge, merge; simpl. repeat split; apply overwrites_default. Qed.

(** One call [updateOrder (id, updates)]. *)
Section UpdateOrder.

Context (id : string) (u : Updates.t).

Lemma updateOne_eq o s :
  updateOne id u o s
  = (updated id u o,
     mkState (sales s) (orders s) (saleCreationInProgress s)
             (timers s ++ scheduled id u o) (activity s ++ logged id u o)
             (storedSales s)).
Proof.
  unfold updateOne, updated, scheduled, logged.
  destruct s as [sl os g tm ac st]; simpl.
  destruct (String.eqb (Order.id o) id), (statusChanges u o), (needsSale u o);
    simpl; by rewrite ?app_nil_r.
Qed.

Lemma mapWithEffects_updateOne l s :
  mapWithEffects (updateOne id u) l s
  = (map (updated id u) l,
     mkState (sales s) (orders s) (saleCreationInProgress s)
             (timers s ++ flat_map (scheduled id u) l)
             (activity s ++ flat_map (logged id u) l)
             (storedSales s)).
Proof.
  revert s. induction l as [|o l IH]; intros s.
  - destruct s; simpl. by rewrite !app_nil_r.
  - simpl. rewrite updateOne_eq, IH. simpl. by rewrite <- !app_assoc.
Qed.

Lemma updateOrder_eq s :
  updateOrder id u s
  = mkState (sales s) (map (updated id u) (orders s))
            (saleCreationInProgress s)
            (timers s ++ flat_map (scheduled id u) (orders s))
            (activity s ++ flat_map (logged id u) (orders s))
            (storedSales s).
Proof. unfold updateOrder. by rewrite mapWithEffects_updateOne. Qed.

Lemma updated_other o : Order.id o ≠ id → updated id u o = o.
Proof. unfold updated. intros H. by apply String.eqb_neq in H as ->. Qed.

Lemma updated_match o : Order.id o = id → updated id u o = merge o u.
Proof. unfold updated. intros H. by apply String.eqb_eq in H as ->. Qed.

(** C9.  [updateOrder id u] keeps the length and the order of the sequence;
    an order whose id is not [id] is unchanged, and an order whose id is
    [id] is replaced by the shallow merge of [u] onto it: each field is the
    one [u] carries when it carries one and the previous one otherwise. *)
Theorem updateOrder_merges_matching_orders_only s :
  Forall2
    (λ o o', (Order.id o ≠ id → o' = o)
             ∧ (Order.id o = id → o' = merge o u ∧ shallowMerge o u o'))
    (orders s) (orders (updateOrder id u s)).
Proof.
  rewrite updateOrder_eq. simpl.
  induction (orders s) as [|o l IH]; simpl; constructor; [|exact IH].
  split.
  - apply updated_other.
  - intros Hid. rewrite (updated_match _ Hid).
    split; [done | apply merge_is_shallowMerge].
Qed.

Lemma no_match_nothing_to_do l :
  Forall (λ o, Order.id o ≠ id) l →
  map (updated id u) l = l
  ∧ flat_map (scheduled id u) l = []
  ∧ flat_map (logged id u) l = [].
Proof.
  induction 1 as [|o l Hne _ (IHm & IHs & IHl)]; [done|].
  simpl. rewrite IHm, IHs, IHl, (updated_other _ Hne).
  unfold scheduled, logged. by apply String.eqb_neq in Hne as ->.
Qed.

(** C10.  When no order of the sequence has the id, [updateOrder] changes
    nothing at all: the sequence is the same, no entry is logged and no
    derivation is scheduled. *)
Theorem updateOrder_unknown_id_changes_nothing s :
  Forall (λ o, Order.id o ≠ id) (orders s) →
  updateOrder id u s = s
  ∧ orders (updateOrder id u s) = orders s
  ∧ activity (updateOrder id u s) = activity s
  ∧ timers (updateOrder id u s) = timers s.
Proof.
  intros Hnone.
  assert (Hsame : updateOrder id u s = s).
  { rewrite updateOrder_eq.
    destruct (no_match_nothing_to_do _ Hnone) as (-> & -> & ->).
    destruct s; simpl. by rewrite !app_nil_r. }
  by rewrite Hsame.
Qed.

End UpdateOrder.

(** ** The order store: deleteOrder *)

Lemma filter_other_ids id (l : list Order.t) :
  List.filter (λ order, negb (String.eqb (Order.id order) id)) l
  = filter (λ o, Order.id o ≠ id) l.
Proof.
  induction l as [|o l IH]; [done|].
  simpl. rewrite filter_cons, IH.
  destruct (String.eqb_spec (Order.id o) id); simpl; by case_decide.
Qed.

Lemma deleteOrder_orders rendered id s :
  orders (deleteOrder rendered LogReturns id s)
  = filter (λ o, Order.id o ≠ id) (orders s).
Proof.
  unfold deleteOrder.
  destruct (List.find _ rendered); simpl; apply filter_other_ids.
Qed.

Lemma find_by_id_Some id (l : list Order.t) o :
  List.find (λ o, String.eqb (Order.id o) id) l = Some o →
  o ∈ l ∧ Order.id o = id.
Proof.
  intros H. apply find_some in H as [Hin Heq].
  split; [by apply list_elem_of_In | by apply String.eqb_eq].
Qed.

Lemma find_by_id_None id (l : list Order.t) :
  List.find (λ o, String.eqb (Order.id o) id) l = None →
  Forall (λ o, Order.id o ≠ id) l.
Proof.
  intros H. apply Forall_forall. intros o Hin.
  apply list_elem_of_In in Hin.
  apply String.eqb_neq. by apply (find_none _ _ H).
Qed.

Lemma find_by_id_holds id (l : list Order.t) :
  (∃ o, List.find (λ o, String.eqb (Order.id o) id) l = Some o) ↔ holdsId id l.
Proof.
  destruct (List.find _ l) as [found|] eqn:Hfind.
  - apply find_by_id_Some in Hfind. split; [by exists found | by eexists].
  - apply find_by_id_None in Hfind. rewrite Forall_forall in Hfind.
    split; [by intros [o ?]|]. intros (o & Hin & Hid). by destruct (Hfind o Hin).
Qed.

(** C7 as the code has it.  [deleteOrder] decides whether to log on the
    sequence its callback closes over, and removes from the sequence its
    updater receives.  An [ORDER_DELETED] entry is emitted when some order
    of the closed-over sequence has the id, and nothing is emitted when none
    has.  When the log call returns, or when none is made, the new sequence
    is the previous one without the orders that have the id, the others in
    place and unchanged, so that no order with the id remains.  When the log
    call throws, the sequence is left as it was. *)
Theorem deleteOrder_removes_when_the_log_call_returns rendered outcome id s :
  (holdsId id rendered →
   ∃ e, activity (deleteOrder rendered outcome id s) = activity s ++ [e]
        ∧ eventType e = "ORDER_DELETED")
  ∧ (¬ holdsId id rendered →
     activity (deleteOrder rendered outcome id s) = activity s)
  ∧ (outcome = LogReturns ∨ ¬ holdsId id rendered →
     orders (deleteOrder rendered outcome id s)
     = filter (λ o, Order.id o ≠ id) (orders s)
     ∧ Forall (λ o, Order.id o ≠ id)
              (orders (deleteOrder rendered outcome id s)))
  ∧ (outcome = LogThrows → holdsId id rendered →
     orders (deleteOrder rendered outcome id s) = orders s).
Proof.
  assert (Hgone : ∀ l : list Order.t,
            Forall (λ o, Order.id o ≠ id) (filter (λ o, Order.id o ≠ id) l)).
  { intros l. apply Forall_forall.
    intros o Hin. by apply list_elem_of_filter in Hin as [? _]. }
  pose proof (find_by_id_holds id rendered) as Hholds.
  unfold deleteOrder.
  destruct (List.find _ rendered) as [found|] eqn:Hfind.
  - assert (Hyes : holdsId id rendered) by (apply Hholds; by eexists).
    split; [intros _; destruct outcome; simpl; eauto|].
    split; [by intros Hno|].
    split.
    + intros [-> | Hno]; [|done]. simpl. rewrite filter_other_ids. eauto.
    + by intros -> _.
  - assert (Hno : ¬ holdsId id rendered).
    { intros Hyes. apply Hholds in Hyes as [o Ho]. done. }
    split; [done|]. split; [done|].
    split; [|done].
    intros _. simpl. rewrite filter_other_ids. eauto.
Qed.

(** ** The order store: createSaleFromOrder *)

Lemma num_or_numOrElse (x d : number) : numOrElse x d (num_or x d).
Proof. split; [apply num_or_truthy | apply num_or_falsy]. Qed.

Lemma str_or_strOrElse (x : option string) (d : string) :
  strOrElse x d (str_or x d).
Proof.
  split.
  - intros c -> Hc. simpl. by apply String.eqb_neq in Hc as ->.
  - by intros [-> | ->].
Qed.

Lemma createSaleFromOrder_blocked tSale tId tDate persisted order s :
  Order.id order ∈ saleCreationInProgress s →
  createSaleFromOrder tSale tId tDate persisted order s = s.
Proof.
  intros Hin. unfold createSaleFromOrder, createSaleFromOrderWith.
  by rewrite bool_decide_eq_true_2.
Qed.

(** The whole effect of a derivation that the guard lets through. *)
Lemma createSaleFromOrder_eq tSale tId tDate persisted order s :
  Order.id order ∉ saleCreationInProgress s →
  createSaleFromOrder tSale tId tDate persisted order s
  = let derived := newSale tId tDate (SalePayload.data (salePayload tSale order)) in
    mkState (sales s ++ [derived])
            (map (markSaleCreated order) (orders s))
            (saleCreationInProgress s)
            (timers s)
            (activity s
             ++ [mkLog (str_or (Order.createdBy order) "system")
                       "SALE_CREATED_FROM_ORDER"
                       ("Vente créée à partir de la commande " +:+ Order.id order)])
            (if persisted then Some (sales s ++ [derived]) else storedSales s).
Proof.
  intros Hfree. unfold createSaleFromOrder, createSaleFromOrderWith.
  rewrite bool_decide_eq_false_2 by done.
  destruct s as [sl os g tm ac st]; simpl in *.
  assert (Hguard : (g ∪ {[Order.id order]}) ∖ {[Order.id order]} = g).
  { apply set_eq. intros x.
    rewrite elem_of_difference, elem_of_union, elem_of_singleton.
    split; [by intros [[?|?] ?] | intros Hx].
    split; [by left | by intros ->]. }
  destruct persisted; unfold_setters; by rewrite Hguard.
Qed.

(** C3.  When the guard does not hold the order's id, [createSaleFromOrder]
    calls the [addSale] it was given once, on the state in which only the
    order's id has been added to the guard set, and whatever that [addSale]
    is, the payload it receives is the same one.  That payload has: the
    order's items; subtotal the order's total; total the order's finalAmount;
    discount the order's discount if truthy, else 0; paymentReceived the
    order's advancePayment if truthy, else its finalAmount; change 0; cashier
    the order's createdBy if truthy, else System; the fixed store location;
    the date of the call.  With the [addSale] of the sales provider the
    sales sequence and its persisted copy are those of [addSale] applied to
    the payload, which it reads at its parameter type: the same fields but
    the date. *)
Theorem createSaleFromOrder_payload tSale order s :
  Order.id order ∉ saleCreationInProgress s →
  ∃ sale : SalePayload.t,
    (∀ submit : SalePayload.t → State → State,
       createSaleFromOrderWith submit tSale order s
       = finishDerivation order
           (submit sale (setInProgress (λ g, g ∪ {[Order.id order]}) s)))
    ∧ (∀ tId tDate persisted,
         sales (createSaleFromOrder tSale tId tDate persisted order s)
         = sales (addSale tId tDate persisted (SalePayload.data sale) s)
         ∧ storedSales (createSaleFromOrder tSale tId tDate persisted order s)
           = storedSales (addSale tId tDate persisted (SalePayload.data sale) s))
    ∧ SalePayload.data sale
      = SaleData.mk (SalePayload.items sale) (SalePayload.subtotal sale)
                    (SalePayload.total sale) (SalePayload.discount sale)
                    (SalePayload.paymentReceived sale) (SalePayload.change sale)
                    (SalePayload.cashier sale) (SalePayload.storeLocation sale)
    ∧ SalePayload.items sale = Order.items order
    ∧ SalePayload.subtotal sale = Order.total order
    ∧ SalePayload.total sale = Order.finalAmount order
    ∧ numOrElse (Order.discount order) (Num 0) (SalePayload.discount sale)
    ∧ numOrElse (Order.advancePayment order) (Order.finalAmount order)
                (SalePayload.paymentReceived sale)
    ∧ SalePayload.change sale = Num 0
    ∧ strOrElse (Order.createdBy order) "System" (SalePayload.cashier sale)
    ∧ SalePayload.storeLocation sale = "UP2DATE FASHION"
    ∧ SalePayload.date sale = toISOString tSale.
Proof.
  intros Hfree. exists (salePayload tSale order).
  split.
  { intros submit. unfold createSaleFromOrderWith.
    by rewrite bool_decide_eq_false_2. }
  split.
  { intros tId tDate persisted.
    rewrite (createSaleFromOrder_eq _ _ _ _ _ _ Hfree).
    autorewrite with store.
    split; [done|]. unfold addSale. by destruct persisted. }
  repeat (split; [done|]).
  split; [apply num_or_numOrElse|].
  split; [apply num_or_numOrElse|].
  split; [done|].
  split; [apply str_or_strOrElse|done].
Qed.

(** ** The guard set between two events *)

Lemma createSaleFromOrder_inProgress tSale tId tDate persisted order s :
  saleCreationInProgress (createSaleFromOrder tSale tId tDate persisted order s)
  = saleCreationInProgress s.
Proof.
  destruct (decide (Order.id order ∈ saleCreationInProgress s)) as [Hin|Hout].
  - by rewrite createSaleFromOrder_blocked.
  - by rewrite createSaleFromOrder_eq.
Qed.

Lemma step_inProgress s e :
  saleCreationInProgress (step s e) = saleCreationInProgress s.
Proof.
  destruct e as [tId tDate p d|removed|tId tDate d|id u|id|tSale tId tDate p];
    simpl.
  - apply addSale_inProgress.
  - unfold clearSales. by destruct removed.
  - done.
  - by rewrite updateOrder_eq.
  - unfold deleteOrder. by destruct (List.find _ _).
  - unfold runTimer. destruct (timers s) as [|order rest]; [done|].
    by rewrite createSaleFromOrder_inProgress.
Qed.

(** Every derivation removes its marker before it returns, and nothing runs
    in between: the guard set is empty whenever an event starts. *)
Lemma reachable_inProgress_empty s :
  reachable s → saleCreationInProgress s = ∅.
Proof.
  induction 1 as [savedSales savedOrders|s e _ IH]; [done|].
  by rewrite step_inProgress.
Qed.

Lemma reachable_run es s : reachable s → reachable (run es s).
Proof.
  revert s. induction es as [|e es IH]; intros s Hs; [done|].
  simpl. apply IH. by constructor.
Qed.

(** A timer that fires in a reachable state is never stopped by the guard. *)
Lemma runTimer_derives tSale tId tDate persisted s order rest :
  reachable s →
  timers s = order :: rest →
  sales (runTimer tSale tId tDate persisted s)
  = sales s ++ [newSale tId tDate (SalePayload.data (salePayload tSale order))]
  ∧ orders (runTimer tSale tId tDate persisted s)
    = map (markSaleCreated order) (orders s)
  ∧ timers (runTimer tSale tId tDate persisted s) = rest.
Proof.
  intros Hreach Htimers.
  pose proof (reachable_inProgress_empty _ Hreach) as Hguard.
  unfold runTimer. rewrite Htimers.
  rewrite createSaleFromOrder_eq; [done|].
  simpl. rewrite Hguard. apply not_elem_of_empty.
Qed.

(** ** From a completed order to a sale *)

Lemma scheduled_completed o u :
  not_flag (Order.saleCreated o) = true →
  Updates.status u = Some completed →
  Order.status o ≠ completed →
  scheduled (Order.id o) u o = [merge o u].
Proof.
  intros Hflag Hst Hne.
  unfold scheduled, statusChanges, needsSale, Status_eqb.
  rewrite String.eqb_refl, Hst, Hflag.
  rewrite (bool_decide_eq_false_2 (completed = Order.status o)) by congruence.
  by rewrite bool_decide_eq_true_2.
Qed.

Lemma singleton_middle {A : Type} (l1 l2 : list A) (x : A) :
  length (l1 ++ x :: l2) = 1%nat → l1 ++ x :: l2 = [x].
Proof.
  rewrite length_app. simpl. intros Hlen.
  destruct l1, l2; simpl in *; (done || lia).
Qed.

Lemma flat_map_single {A B : Type} (f : A → list B) (before : list B)
    (l : list A) i a b :
  l !! i = Some a →
  f a = [b] →
  length (before ++ flat_map f l) = 1%nat →
  before ++ flat_map f l = [b].
Proof.
  intros Hi Hf. rewrite <- (take_drop_middle l i a Hi).
  rewrite flat_map_app. simpl. rewrite Hf. simpl.
  rewrite app_assoc. apply singleton_middle.
Qed.

(** When the id names one order only, a completing update schedules one
    derivation. *)
Lemma updateOrder_schedules_once_for_unique_id s i o u :
  orders s !! i = Some o →
  (∀ j o', orders s !! j = Some o' → Order.id o' = Order.id o → j = i) →
  not_flag (Order.saleCreated o) = true →
  Updates.status u = Some completed →
  Order.status o ≠ completed →
  timers (updateOrder (Order.id o) u s) = timers s ++ [merge o u].
Proof.
  intros Hi Huniq Hflag Hst Hne.
  rewrite updateOrder_eq. simpl. f_equal.
  rewrite <- (take_drop_middle _ _ _ Hi), flat_map_app. simpl.
  rewrite (scheduled_completed _ _ Hflag Hst Hne).
  assert (Hbefore : Forall (λ o', Order.id o' ≠ Order.id o) (take i (orders s))).
  { apply Forall_lookup. intros j o' Hj Hid.
    apply lookup_take_Some in Hj as [Hj Hlt].
    specialize (Huniq j o' Hj Hid). lia. }
  assert (Hafter : Forall (λ o', Order.id o' ≠ Order.id o)
                          (drop (S i) (orders s))).
  { apply Forall_lookup. intros j o' Hj Hid.
    rewrite lookup_drop in Hj.
    specialize (Huniq _ o' Hj Hid). lia. }
  destruct (no_match_nothing_to_do _ u _ Hbefore) as (_ & -> & _).
  destruct (no_match_nothing_to_do _ u _ Hafter) as (_ & -> & _).
  done.
Qed.

Lemma fire_derives f s order rest :
  reachable s →
  timers s = order :: rest →
  reachable (fire f s)
  ∧ timers (fire f s) = rest
  ∧ orders (fire f s) = map (markSaleCreated order) (orders s)
  ∧ sales (fire f s)
    = sales s
      ++ [newSale (fire_now f) (fire_date f)
            (SalePayload.data (salePayload (fire_sale f) order))].
Proof.
  intros Hreach Htimers. unfold fire.
  destruct (runTimer_derives (fire_sale f) (fire_now f) (fire_date f)
              (fire_persisted f) s _ _ Hreach Htimers)
    as (Hsales & Horders & Hrest).
  split; [|done].
  apply (reachable_step s
           (TimerFires (fire_sale f) (fire_now f) (fire_date f)
                       (fire_persisted f)) Hreach).
Qed.

Lemma markSaleCreated_sameOrFlagged order x :
  sameOrFlagged x (markSaleCreated order x).
Proof.
  unfold sameOrFlagged, markSaleCreated.
  destruct (String.eqb _ _); [by right | by left].
Qed.

Lemma sameOrFlagged_trans x y z :
  sameOrFlagged x y → sameOrFlagged y z → sameOrFlagged x z.
Proof.
  unfold sameOrFlagged. intros [-> | ->] [-> | ->]; auto.
Qed.

Lemma Forall2_after_map {A B : Type} (P Q : A → B → Prop) (g : A → A)
    (l : list A) (k : list B) :
  Forall2 P (map g l) k →
  (∀ x y, P (g x) y → Q x y) →
  Forall2 Q l k.
Proof.
  intros Hall Himpl. revert k Hall.
  induction l as [|x l IH]; intros k Hall; simpl in Hall.
  - apply Forall2_nil_inv_l in Hall as ->. constructor.
  - apply Forall2_cons_inv_l in Hall as (y & k' & Hxy & Hrest & ->).
    constructor; [by apply Himpl | by apply IH].
Qed.

(** Timers that fire leave the queue from its head and change orders only
    by setting saleCreated. *)
Lemma fireTimers_spec fs s :
  reachable s →
  (length fs ≤ length (timers s))%nat →
  reachable (fireTimers fs s)
  ∧ timers (fireTimers fs s) = drop (length fs) (timers s)
  ∧ Forall2 sameOrFlagged (orders s) (orders (fireTimers fs s)).
Proof.
  revert s. induction fs as [|f fs IH]; intros s Hreach Hlen.
  - split; [done|]. split; [done|].
    apply Forall_Forall2_diag, Forall_forall. intros x _. by left.
  - destruct (timers s) as [|order rest] eqn:Htimers; simpl in Hlen; [lia|].
    destruct (fire_derives f s order rest Hreach Htimers)
      as (Hreach' & Hrest & Horders & _).
    destruct (IH (fire f s) Hreach') as (Hreach'' & Hdrop & Hsame).
    { rewrite Hrest. lia. }
    simpl. split; [done|]. split; [by rewrite Hdrop, Hrest|].
    rewrite Horders in Hsame.
    apply (Forall2_after_map _ _ _ _ _ Hsame).
    intros x y Hxy.
    eapply sameOrFlagged_trans; [apply markSaleCreated_sameOrFlagged | done].
Qed.

Lemma flat_map_middle {A B : Type} (f : A → list B) (l : list A) i a :
  l !! i = Some a →
  flat_map f l = flat_map f (take i l) ++ f a ++ flat_map f (drop (S i) l).
Proof.
  intros Hi. rewrite <- (take_drop_middle l i a Hi) at 1.
  by rewrite flat_map_app.
Qed.

Lemma unique_id_nothing_around s i o u :
  orders s !! i = Some o →
  (∀ j o', orders s !! j = Some o' → Order.id o' = Order.id o → j = i) →
  flat_map (scheduled (Order.id o) u) (take i (orders s)) = []
  ∧ flat_map (scheduled (Order.id o) u) (drop (S i) (orders s)) = [].
Proof.
  intros Hi Huniq.
  assert (Hbefore : Forall (λ o', Order.id o' ≠ Order.id o) (take i (orders s))).
  { apply Forall_lookup. intros j o' Hj Hid.
    apply lookup_take_Some in Hj as [Hj Hlt].
    specialize (Huniq j o' Hj Hid). lia. }
  assert (Hafter : Forall (λ o', Order.id o' ≠ Order.id o)
                          (drop (S i) (orders s))).
  { apply Forall_lookup. intros j o' Hj Hid.
    rewrite lookup_drop in Hj.
    specialize (Huniq _ o' Hj Hid). lia. }
  destruct (no_match_nothing_to_do _ u _ Hbefore) as (_ & -> & _).
  by destruct (no_match_nothing_to_do _ u _ Hafter) as (_ & -> & _).
Qed.

(** C2 as the code has it.  In a reachable state let an order of the
    sequence have a falsy saleCreated and a status other than completed, and
    let [updateOrder] be called with its id and an update whose status is
    completed.  The call schedules the derivation of the merged order
    behind what was pending (and that derivation alone, right behind what
    was pending, when the id names no other order).  Once the timers ahead
    of it have fired, the timer of that derivation fires: it leaves the
    queue, the sales sequence has exactly one more record, whose total is
    the merged order's finalAmount when that is truthy and [0] otherwise
    (the merged finalAmount is the order's own when the update carries
    none), and the order, at its place in the sequence, has saleCreated
    true. *)
Theorem completing_an_order_derives_one_sale s i o u :
  reachable s →
  orders s !! i = Some o →
  not_flag (Order.saleCreated o) = true →
  Updates.status u = Some completed →
  Order.status o ≠ completed →
  let s1 := updateOrder (Order.id o) u s in
  ∃ ahead behind : list Order.t,
    timers s1 = ahead ++ merge o u :: behind
    ∧ timers s `prefix_of` ahead
    ∧ ((∀ j o', orders s !! j = Some o' → Order.id o' = Order.id o → j = i) →
       ahead = timers s ∧ behind = [])
    ∧ ∀ (fs : list Firing) (f : Firing),
        length fs = length ahead →
        let s' := fireTimers fs s1 in
        let s2 := fire f s' in
        timers s2 = behind
        ∧ ∃ sale : Sale.t,
            sales s2 = sales s' ++ [sale]
            ∧ defaultsToZero (Order.finalAmount (merge o u)) (Sale.total sale)
            ∧ (Updates.finalAmount u = None →
               defaultsToZero (Order.finalAmount o) (Sale.total sale))
            ∧ orders s2 !! i
              = Some (Order.with_saleCreated (merge o u) (Some true)).
Proof.
  intros Hreach Hi Hflag Hst Hne s1.
  set (sched := scheduled (Order.id o) u).
  exists (timers s ++ flat_map sched (take i (orders s))),
         (flat_map sched (drop (S i) (orders s))).
  assert (Htimers : timers s1
            = (timers s ++ flat_map sched (take i (orders s)))
              ++ merge o u :: flat_map sched (drop (S i) (orders s))).
  { subst s1 sched. rewrite updateOrder_eq. simpl.
    rewrite (flat_map_middle _ _ _ _ Hi).
    rewrite (scheduled_completed _ _ Hflag Hst Hne).
    by rewrite <- app_assoc. }
  assert (Hreach1 : reachable s1)
    by apply (reachable_step s (UpdateOrder (Order.id o) u) Hreach).
  assert (Hi1 : orders s1 !! i = Some (merge o u)).
  { subst s1. rewrite updateOrder_eq. simpl.
    rewrite list_lookup_fmap, Hi. simpl. by rewrite updated_match. }
  split; [exact Htimers|].
  split; [by eexists|].
  split.
  { intros Huniq.
    destruct (unique_id_nothing_around s i o u Hi Huniq) as [Hb Ha].
    unfold sched. by rewrite Hb, Ha, app_nil_r. }
  intros fs f Hlen s' s2.
  destruct (fireTimers_spec fs s1 Hreach1) as (Hreach' & Hdrop & Hsame).
  { rewrite Htimers, length_app. lia. }
  fold s' in Hreach', Hdrop, Hsame.
  rewrite Htimers, (drop_app_length' _ _ _ Hlen) in Hdrop.
  destruct (fire_derives f s' _ _ Hreach' Hdrop)
    as (_ & Hrest & Horders & Hsales).
  fold s2 in Hrest, Horders, Hsales.
  split; [exact Hrest|].
  eexists. split; [exact Hsales|].
  split; [apply num_or_zero_defaults|].
  split.
  { intros Hkeep. simpl. rewrite Hkeep. apply num_or_zero_defaults. }
  destruct (Forall2_lookup_l _ _ _ _ _ Hsame Hi1) as (y & Hy & Hym).
  rewrite Horders, list_lookup_fmap, Hy. simpl. f_equal.
  unfold markSaleCreated.
  destruct Hym as [-> | ->]; simpl; by rewrite String.eqb_refl.
Qed.

(** A timer that fires never takes a true saleCreated back. *)
Lemma runTimer_keeps_saleCreated tSale tId tDate persisted s i o :
  orders s !! i = Some o →
  Order.saleCreated o = Some true →
  ∃ o', orders (runTimer tSale tId tDate persisted s) !! i = Some o'
        ∧ Order.saleCreated o' = Some true.
Proof.
  intros Hi Htrue. unfold runTimer.
  destruct (timers s) as [|order rest]; [by exists o|].
  destruct (decide (Order.id order ∈ saleCreationInProgress s)) as [Hin|Hout].
  - rewrite createSaleFromOrder_blocked by done. by exists o.
  - rewrite createSaleFromOrder_eq by done. simpl.
    rewrite list_lookup_fmap, Hi. simpl.
    exists (markSaleCreated order o). split; [done|].
    unfold markSaleCreated. by destruct (String.eqb _ _).
Qed.

(** Two pending derivations give two sales, for the same order or not. *)
Lemma two_timers_two_sales s o1 o2 rest tSale tId tDate persisted
    tSale' tId' tDate' persisted' :
  reachable s →
  timers s = o1 :: o2 :: rest →
  sales (runTimer tSale' tId' tDate' persisted'
           (runTimer tSale tId tDate persisted s))
  = sales s
    ++ [newSale tId tDate (SalePayload.data (salePayload tSale o1));
        newSale tId' tDate' (SalePayload.data (salePayload tSale' o2))].
Proof.
  intros Hreach Htimers.
  destruct (runTimer_derives tSale tId tDate persisted s _ _ Hreach Htimers)
    as (Hsales & _ & Hrest).
  assert (Hreach1 : reachable (runTimer tSale tId tDate persisted s))
    by apply (reachable_step s (TimerFires tSale tId tDate persisted) Hreach).
  destruct (runTimer_derives tSale' tId' tDate' persisted' _ _ _ Hreach1 Hrest)
    as (Hsales' & _ & _).
  by rewrite Hsales', Hsales, <- app_assoc.
Qed.

(** C1, on the code.  The example order is completed, reopened and completed
    again before any timer fires: two derivations are pending, both for that
    order and both taken while its saleCreated was false.  After the two have
    run there are two derived sales, not one, and they have the same id; the
    order's saleCreated is true and the guard set is empty. *)
Theorem completing_twice_derives_two_sales :
  map Order.id (timers (run completedTwice exampleState))
  = [orderIdAt t0; orderIdAt t0]
  ∧ map Order.saleCreated (timers (run completedTwice exampleState))
    = [Some false; Some false]
  ∧ map Sale.id (sales (run (completedTwice ++ twoTimersFire) exampleState))
    = [saleIdAt (t0 + 5); saleIdAt (t0 + 5)]
  ∧ map Order.saleCreated
        (orders (run (completedTwice ++ twoTimersFire) exampleState))
    = [Some true]
  ∧ saleCreationInProgress (run completedTwice exampleState) = ∅.
Proof.
  do 4 (split; [by vm_compute|]).
  apply reachable_inProgress_empty, reachable_run.
  apply (reachable_step _ (AddOrder t0 t0 exampleData)), reachable_init.
Qed.

(** ** The order store: addOrder *)

Lemma orderIdAt_inj : Inj (=) (=) orderIdAt.
Proof.
  intros t1 t2 Heq. unfold orderIdAt in Heq. simpl in Heq.
  injection Heq as Heq. by apply (inj pretty).
Qed.

Lemma addOrder_orders tId tDate orderData s :
  orders (addOrder tId tDate orderData s)
  = orders s ++ [newOrder tId tDate orderData].
Proof. reflexivity. Qed.

Lemma find_appended (l : list Order.t) o :
  Forall (λ o', Order.id o' ≠ Order.id o) l →
  List.find (λ x, String.eqb (Order.id x) (Order.id o)) (l ++ [o]) = Some o.
Proof.
  induction 1 as [|o' l Hne _ IH]; simpl.
  - by rewrite String.eqb_refl.
  - by apply String.eqb_neq in Hne as ->.
Qed.

(** C6 as the code has it.  [addOrder] appends exactly one order: its id
    is ORD- followed by the reading of the clock, its orderDate is the text
    of the reading taken for it, its saleCreated is false whatever the
    payload says, and every other field is the payload's.  When no order of
    the sequence had that id before, [getOrderById] with that id then
    returns the new record. *)
Theorem addOrder_appends_and_is_found_when_id_is_new tId tDate orderData s :
  ∃ o : Order.t,
    orders (addOrder tId tDate orderData s) = orders s ++ [o]
    ∧ Order.id o = orderIdAt tId
    ∧ Order.orderDate o = toISOString tDate
    ∧ Order.saleCreated o = Some false
    ∧ carries orderData o
    ∧ (Forall (λ o', Order.id o' ≠ orderIdAt tId) (orders s) →
       getOrderById (orderIdAt tId) (addOrder tId tDate orderData s) = Some o).
Proof.
  exists (newOrder tId tDate orderData).
  split; [apply addOrder_orders|].
  do 3 (split; [done|]).
  split; [by repeat split|].
  intros Hnew. unfold getOrderById. rewrite addOrder_orders.
  by apply (find_appended _ (newOrder tId tDate orderData)).
Qed.

(** ** The specification's example *)

Example completing_the_example_order :
  let s := run [ UpdateOrder (orderIdAt t0) (Updates.of_status completed);
                 TimerFires (t0 + 5) (t0 + 5) (t0 + 5) true ] exampleState in
  map (λ sale, (Sale.total sale, Sale.discount sale,
                Sale.paymentReceived sale, Sale.change sale)) (sales s)
  = [(Num 18, Num 2, Num 18, Num 0)]
  ∧ map Order.saleCreated (orders s) = [Some true].
Proof. by vm_compute. Qed.

(** ** The claims at concrete inputs *)

Lemma exampleState_reachable : reachable exampleState.
Proof. apply (reachable_step _ (AddOrder t0 t0 exampleData)), reachable_init. Qed.

(** C2, the statement as worded fails: an order whose finalAmount is NaN
    meets every condition of the claim, a single derivation is scheduled,
    and the sale it produces has total [0], which is not the order's
    finalAmount. *)
Lemma completing_a_NaN_order_gives_total_zero :
  let s1 := updateOrder (orderIdAt t0) (Updates.of_status completed) nanState in
  let s2 := runTimer (t0 + 5) (t0 + 5) (t0 + 5) true s1 in
  map Order.id (orders nanState) = [orderIdAt t0]
  ∧ map Order.saleCreated (orders nanState) = [Some false]
  ∧ map Order.status (orders nanState) = [pending]
  ∧ length (timers s1) = 1%nat
  ∧ map Order.finalAmount (orders s2) = [NaN]
  ∧ map Sale.total (sales s2) = [Num 0].
Proof. by vm_compute. Qed.

(** C2 at the example order: completed once, then its timer fires. *)
Lemma example_order_completed_once :
  let s1 :=
    updateOrder (Order.id exampleOrder) (Updates.of_status completed)
                exampleState in
  ∃ ahead behind : list Order.t,
    timers s1
    = ahead ++ merge exampleOrder (Updates.of_status completed) :: behind
    ∧ timers exampleState `prefix_of` ahead
    ∧ ((∀ j o', orders exampleState !! j = Some o' →
                Order.id o' = Order.id exampleOrder → j = 0%nat) →
       ahead = timers exampleState ∧ behind = [])
    ∧ ∀ (fs : list Firing) (f : Firing),
        length fs = length ahead →
        let s' := fireTimers fs s1 in
        let s2 := fire f s' in
        timers s2 = behind
        ∧ ∃ sale : Sale.t,
            sales s2 = sales s' ++ [sale]
            ∧ defaultsToZero
                (Order.finalAmount
                   (merge exampleOrder (Updates.of_status completed)))
                (Sale.total sale)
            ∧ (Updates.finalAmount (Updates.of_status completed) = None →
               defaultsToZero (Order.finalAmount exampleOrder)
                              (Sale.total sale))
            ∧ orders s2 !! 0%nat
              = Some (Order.with_saleCreated
                        (merge exampleOrder (Updates.of_status completed))
                        (Some true)).
Proof.
  apply (completing_an_order_derives_one_sale
           exampleState 0 exampleOrder (Updates.of_status completed)).
  - apply exampleState_reachable.
  - reflexivity.
  - reflexivity.
  - reflexivity.
  - discriminate.
Defined.

(** C3 at the example order, in a state whose guard set is empty. *)
Lemma example_order_payload :
  ∃ sale : SalePayload.t,
    sales (createSaleFromOrder (t0 + 5) (t0 + 6) (t0 + 6) true exampleOrder
                               exampleState)
    = sales (addSale (t0 + 6) (t0 + 6) true (SalePayload.data sale)
                     exampleState)
    ∧ SalePayload.total sale = Num 18
    ∧ SalePayload.change sale = Num 0.
Proof.
  destruct (createSaleFromOrder_payload (t0 + 5) exampleOrder exampleState)
    as (sale & _ & Hsales & _ & _ & _ & Htotal & _ & _ & Hchange & _).
  - apply not_elem_of_empty.
  - exists sale.
    destruct (Hsales (t0 + 6) (t0 + 6) true) as [Hsame _].
    split; [exact Hsame|]. split; [exact Htotal | exact Hchange].
Defined.

(** C5, the statement as worded fails: two calls of [addSale] that read the
    same millisecond give two records with one id. *)
Lemma addSale_twice_in_one_millisecond :
  let s :=
    addSales [mkCall t0 t0 true exampleSaleData;
              mkCall t0 t0 true exampleSaleData] (initialState None None) in
  map Sale.id (sales s) = [saleIdAt t0; saleIdAt t0]
  ∧ ¬ NoDup (map Sale.id (sales s)).
Proof.
  intros s. split; [by vm_compute|].
  intros Hnodup. vm_compute in Hnodup.
  apply NoDup_cons in Hnodup as [Hfresh _]. apply Hfresh. by left.
Qed.

(** C5 at two calls one millisecond apart, on an empty sequence. *)
Lemma addSale_in_two_milliseconds :
  NoDup (map Sale.id
           (sales (addSales [mkCall t0 t0 true exampleSaleData;
                             mkCall (t0 + 1) (t0 + 1) false exampleSaleData]
                            (initialState None None)))).
Proof.
  apply addSale_ids_distinct_when_clock_readings_differ.
  - apply NoDup_nil_2.
  - apply NoDup_cons. split.
    + intros Hin. apply list_elem_of_singleton in Hin. discriminate.
    + apply NoDup_singleton.
  - repeat constructor; apply not_elem_of_nil.
Defined.

(** C6, the statement as worded fails: a second [addOrder] that reads the
    same millisecond gives its order the id of the first, and [getOrderById]
    returns the first order, not the new record. *)
Lemma addOrder_twice_in_one_millisecond :
  let s := addOrder t0 t0 otherData exampleState in
  orders s = [exampleOrder; newOrder t0 t0 otherData]
  ∧ Order.id (newOrder t0 t0 otherData) = Order.id exampleOrder
  ∧ getOrderById (Order.id (newOrder t0 t0 otherData)) s = Some exampleOrder
  ∧ exampleOrder ≠ newOrder t0 t0 otherData.
Proof. do 3 (split; [by vm_compute|]). differ_by_evaluation. Qed.

(** C6 at a second order created one millisecond after the first. *)
Lemma addOrder_one_millisecond_later :
  ∃ o : Order.t,
    getOrderById (orderIdAt (t0 + 1))
                 (addOrder (t0 + 1) (t0 + 1) otherData exampleState) = Some o
    ∧ Order.saleCreated o = Some false.
Proof.
  destruct (addOrder_appends_and_is_found_when_id_is_new
              (t0 + 1) (t0 + 1) otherData exampleState)
    as (o & _ & _ & _ & Hflag & _ & Hfound).
  exists o. split; [|exact Hflag].
  apply Hfound. repeat constructor. differ_by_evaluation.
Defined.

(** C7, the statement as worded fails.  When the log call throws, the
    example order is still in the sequence after [deleteOrder].  And when
    [deleteOrder] is called twice from one render, the second call logs
    ORDER_DELETED although no order had the id before it. *)
Lemma deleteOrder_when_the_log_call_throws :
  let rendered := orders exampleState in
  let s1 := deleteOrder rendered LogReturns (orderIdAt t0) exampleState in
  map Order.id
      (orders (deleteOrder rendered LogThrows (orderIdAt t0) exampleState))
  = [orderIdAt t0]
  ∧ orders s1 = []
  ∧ map eventType (activity (deleteOrder rendered LogReturns (orderIdAt t0) s1))
    = map eventType (activity s1) ++ ["ORDER_DELETED"].
Proof. by vm_compute. Qed.

(** C10 at an id that the example state does not hold. *)
Lemma updateOrder_of_an_unknown_id :
  updateOrder "ORD-0" (Updates.of_status completed) exampleState = exampleState
  ∧ orders (updateOrder "ORD-0" (Updates.of_status completed) exampleState)
    = orders exampleState
  ∧ activity (updateOrder "ORD-0" (Updates.of_status completed) exampleState)
    = activity exampleState
  ∧ timers (updateOrder "ORD-0" (Updates.of_status completed) exampleState)
    = timers exampleState.
Proof.
  apply updateOrder_unknown_id_changes_nothing.
  repeat constructor. differ_by_evaluation.
Defined.

(** * Further properties *)

(** ** Looking a sale up *)

Lemma find_sale_app id (l k : list Sale.t) :
  List.find (λ sale, String.eqb (Sale.id sale) id) (l ++ k)
  = match List.find (λ sale, String.eqb (Sale.id sale) id) l with
    | Some older => Some older
    | None => List.find (λ sale, String.eqb (Sale.id sale) id) k
    end.
Proof.
  induction l as [|x l IH]; [done|].
  simpl. by destruct (String.eqb (Sale.id x) id).
Qed.

(** X1.  What [getSaleById] answers after an [addSale]: a record that the
    id already found is still the one found; an id that found nothing finds
    the new record when it is the new record's id, and nothing otherwise.  A
    record appended under an id that is already in the sequence is therefore
    never returned. *)
Theorem getSaleById_after_addSale id tId tDate persisted saleData s :
  getSaleById id (addSale tId tDate persisted saleData s)
  = match getSaleById id s with
    | Some older => Some older
    | None =>
        if String.eqb (saleIdAt tId) id
        then Some (newSale tId tDate saleData)
        else None
    end.
Proof.
  unfold getSaleById. rewrite addSale_sales, find_sale_app.
  destruct (List.find _ (sales s)); [done|].
  cbn [List.find]. by rewrite newSale_id.
Qed.

Lemma find_sale_first id (l : list Sale.t) sale :
  List.find (λ x, String.eqb (Sale.id x) id) l = Some sale
  ↔ firstWithId id l sale.
Proof.
  revert sale. induction l as [|x l IH]; intros sale; simpl.
  - split; [done|]. by intros (i & Hi & _).
  - destruct (String.eqb_spec (Sale.id x) id) as [Heq|Hne].
    + split.
      * intros [= <-]. exists 0%nat. repeat split; [done|]. intros j other Hj. lia.
      * intros ([|i] & Hi & Hid & Hfirst).
        -- by injection Hi as ->.
        -- destruct (Hfirst 0%nat x); [lia|done|done].
    + rewrite IH. split.
      * intros (i & Hi & Hid & Hfirst). exists (S i).
        repeat split; [done|done|].
        intros [|j] other Hj Hother.
        -- by injection Hother as <-.
        -- apply (Hfirst j); [lia|done].
      * intros ([|i] & Hi & Hid & Hfirst).
        -- injection Hi as ->. done.
        -- exists i. repeat split; [done|done|].
           intros j other Hj Hother. apply (Hfirst (S j)); [lia|done].
Qed.

Lemma find_sale_none id (l : list Sale.t) :
  List.find (λ x, String.eqb (Sale.id x) id) l = None
  ↔ Forall (λ x, Sale.id x ≠ id) l.
Proof.
  induction l as [|x l IH]; simpl.
  - split; [constructor|done].
  - rewrite Forall_cons.
    destruct (String.eqb_spec (Sale.id x) id) as [Heq|Hne].
    + split; [done|]. by intros [Hne _].
    + rewrite IH. tauto.
Qed.

(** X2.  [getSaleById] returns the first record of the sequence that has
    the id, and the not-found value exactly when no record has it. *)
Theorem getSaleById_first_match_or_none id s :
  (∀ sale, getSaleById id s = Some sale ↔ firstWithId id (sales s) sale)
  ∧ (getSaleById id s = None ↔ Forall (λ sale, Sale.id sale ≠ id) (sales s)).
Proof.
  split.
  - intros sale. apply find_sale_first.
  - apply find_sale_none.
Qed.

(** ** The persisted copy of the sales *)

Lemma addSale_storedSales tId tDate persisted saleData s :
  storedSales (addSale tId tDate persisted saleData s)
  = if persisted then Some (sales s ++ [newSale tId tDate saleData])
    else storedSales s.
Proof. unfold addSale. by destruct persisted. Qed.

Lemma updateOrder_keeps_sales id u s :
  sales (updateOrder id u s) = sales s
  ∧ storedSales (updateOrder id u s) = storedSales s.
Proof. by rewrite updateOrder_eq. Qed.

Lemma deleteOrder_keeps_sales rendered outcome id s :
  sales (deleteOrder rendered outcome id s) = sales s
  ∧ storedSales (deleteOrder rendered outcome id s) = storedSales s.
Proof. unfold deleteOrder. by destruct (List.find _ _), outcome. Qed.






(** X5.  When the storage call throws, memory is changed all the same and
    the persisted copy is left as it was: after an [addSale] whose write
    failed a reload shows the sequence without the new sale, and after a
    [clearSales] whose removal failed a reload shows the cleared sales
    again. *)
Theorem storage_failure_loses_the_change tId tDate saleData s savedOrders :
  inSync s →
  sales (addSale tId tDate false saleData s)
  = sales s ++ [newSale tId tDate saleData]
  ∧ sales (reload (addSale tId tDate false saleData s) savedOrders) = sales s
  ∧ sales (clearSales false s) = []
  ∧ sales (reload (clearSales false s) savedOrders) = sales s.
Proof.
  intros Hsync. split; [apply addSale_sales|].
  split; [|split; [done|exact Hsync]].
  unfold reload. by rewrite addSale_storedSales.
Qed.

(** ** Sales are only ever appended *)

Lemma createSaleFromOrder_sales_prefix tSale tId tDate persisted order s :
  sales s `prefix_of` sales (createSaleFromOrder tSale tId tDate persisted order s).
Proof.
  destruct (decide (Order.id order ∈ saleCreationInProgress s)) as [Hin|Hout].
  - by rewrite createSaleFromOrder_blocked.
  - rewrite createSaleFromOrder_eq by done. simpl. by eexists.
Qed.

Lemma step_sales_prefix s e :
  isClearSales e = false → sales s `prefix_of` sales (step s e).
Proof.
  destruct e as [tId tDate p d|removed|tId tDate d|id u|rendered id|tSale tId tDate p];
    cbn [step isClearSales]; intros Hkeep.
  - rewrite addSale_sales. by eexists.
  - done.
  - done.
  - by destruct (updateOrder_keeps_sales id u s) as [-> _].
  - by destruct (deleteOrder_keeps_sales rendered LogReturns id s) as [-> _].
  - unfold runTimer. destruct (timers s) as [|order rest]; [done|].
    apply (createSaleFromOrder_sales_prefix _ _ _ _ _ (setTimers (λ _, rest) s)).
Qed.

(** X6.  No function changes or removes a stored sale except [clearSales]:
    through any events without a [clearSales], the sales sequence only grows
    at its end. *)
Theorem sales_are_append_only es s :
  forallb (λ e, negb (isClearSales e)) es = true →
  sales s `prefix_of` sales (run es s).
Proof.
  revert s. induction es as [|e es IH]; intros s Hkeep; [done|].
  simpl in Hkeep. apply andb_true_iff in Hkeep as [He Hes].
  apply negb_true_iff in He.
  simpl. etrans; [by apply step_sales_prefix | by apply IH].
Qed.

(** X7.  The two stores meet only when a timer fires.  The mutators of the
    order store leave the sales and their persisted copy alone (an update to
    completed creates no sale by itself); [addSale] and [clearSales] leave
    the orders, the pending timers and the activity log alone. *)
Theorem stores_are_independent_until_a_timer_fires s e :
  (isOrderCall e = true →
   sales (step s e) = sales s ∧ storedSales (step s e) = storedSales s)
  ∧ (isSalesCall e = true →
     orders (step s e) = orders s
     ∧ timers (step s e) = timers s
     ∧ activity (step s e) = activity s).
Proof.
  destruct e as [tId tDate p d|removed|tId tDate d|id u|rendered id|tSale tId tDate p];
    cbn [step isOrderCall isSalesCall]; (split; intros Hcall); try done.
  - by autorewrite with store.
  - unfold clearSales. by destruct removed.
  - apply updateOrder_keeps_sales.
  - apply deleteOrder_keeps_sales.
Qed.

(** ** What a derivation does to the orders *)

Lemma with_saleCreated_is_merge o :
  Order.with_saleCreated o (Some true) = merge o saleCreatedTrue.
Proof. reflexivity. Qed.

(** X8.  A derivation that the guard lets through changes the order
    sequence in one way only: every order that has the id of the derived
    order becomes that order with saleCreated true, every other field kept,
    and every order with another id is unchanged. *)
Theorem derivation_only_sets_saleCreated tSale tId tDate persisted order s :
  Order.id order ∉ saleCreationInProgress s →
  Forall2
    (λ o o', (Order.id o ≠ Order.id order → o' = o)
             ∧ (Order.id o = Order.id order →
                o' = merge o saleCreatedTrue
                ∧ shallowMerge o saleCreatedTrue o'))
    (orders s)
    (orders (createSaleFromOrder tSale tId tDate persisted order s)).
Proof.
  intros Hfree. rewrite createSaleFromOrder_eq by done. simpl.
  induction (orders s) as [|o l IH]; simpl; constructor; [|exact IH].
  unfold markSaleCreated.
  destruct (String.eqb_spec (Order.id o) (Order.id order)) as [Heq|Hne].
  - split; [done|]. intros _. rewrite with_saleCreated_is_merge.
    split; [done | apply merge_is_shallowMerge].
  - split; [done|]. by intros Heq.
Qed.

(** X16.  In every state the application can reach the in-progress set is
    empty: a derivation is never stopped by the guard of
    [createSaleFromOrder], it always appends its sale, and it leaves the set
    empty again. *)
Theorem derivation_is_never_blocked tSale tId tDate persisted order s :
  reachable s →
  saleCreationInProgress s = ∅
  ∧ sales (createSaleFromOrder tSale tId tDate persisted order s)
    = sales s ++ [derivedSale tSale tId tDate order]
  ∧ saleCreationInProgress
      (createSaleFromOrder tSale tId tDate persisted order s) = ∅.
Proof.
  intros Hreach.
  pose proof (reachable_inProgress_empty _ Hreach) as Hguard.
  split; [done|].
  rewrite createSaleFromOrder_inProgress.
  split; [|done].
  rewrite createSaleFromOrder_eq; [done|].
  rewrite Hguard. apply not_elem_of_empty.
Qed.

(** ** Pending derivations and later calls *)

Lemma order_call_keeps_pending s e :
  isOrderCall e = true →
  sales (step s e) = sales s
  ∧ ∃ more, timers (step s e) = timers s ++ more.
Proof.
  destruct e as [tId tDate p d|removed|tId tDate d|id u|rendered id|tSale tId tDate p];
    cbn [step isOrderCall]; intros Hcall; try done.
  - split; [done|]. exists []. by rewrite app_nil_r.
  - rewrite updateOrder_eq. simpl. split; [done|]. by eexists.
  - unfold deleteOrder. destruct (List.find _ _); simpl;
      (split; [done|]; exists []; by rewrite app_nil_r).
Qed.

(** X9.  A pending derivation is neither cancelled nor refreshed by what
    happens to the order afterwards: whichever of [addOrder], [updateOrder]
    and [deleteOrder] is called before the timer fires, with whatever
    arguments, the timer appends the sale of the order as it was when the
    derivation was scheduled. *)
Theorem pending_derivation_survives_order_calls
    s e order rest tSale tId tDate persisted :
  reachable s →
  timers s = order :: rest →
  isOrderCall e = true →
  sales (runTimer tSale tId tDate persisted (step s e))
  = sales s ++ [derivedSale tSale tId tDate order].
Proof.
  intros Hreach Htimers Hcall.
  destruct (order_call_keeps_pending s e Hcall) as (Hsales & more & Hmore).
  rewrite Htimers in Hmore. simpl in Hmore.
  assert (Hreach' : reachable (step s e)) by by constructor.
  destruct (runTimer_derives tSale tId tDate persisted _ _ _ Hreach' Hmore)
    as (-> & _ & _).
  by rewrite Hsales.
Qed.

Lemma settled_not_scheduled id u s :
  settled id s → flat_map (scheduled id u) (orders s) = [].
Proof.
  unfold settled. induction 1 as [|o l Hflag _ IH]; [done|].
  simpl. rewrite IH, app_nil_r. unfold scheduled.
  destruct (String.eqb_spec (Order.id o) id) as [Heq|Hne]; [|done].
  unfold needsSale. rewrite (Hflag Heq). simpl.
  destruct (Updates.status u); by rewrite ?andb_false_r.
Qed.

Lemma settled_after_marking id order (l : list Order.t) :
  Forall (λ o, Order.id o = id → Order.saleCreated o = Some true) l →
  Forall (λ o, Order.id o = id → Order.saleCreated o = Some true)
         (map (markSaleCreated order) l).
Proof.
  induction 1 as [|o l Hflag _ IH]; constructor; [|exact IH].
  unfold markSaleCreated. by destruct (String.eqb _ _).
Qed.

Lemma settled_by_timer tSale tId tDate persisted s order rest :
  reachable s →
  timers s = order :: rest →
  settled (Order.id order) (runTimer tSale tId tDate persisted s).
Proof.
  intros Hreach Htimers.
  destruct (runTimer_derives tSale tId tDate persisted _ _ _ Hreach Htimers)
    as (_ & Horders & _).
  unfold settled. rewrite Horders. clear Horders.
  induction (orders s) as [|o l IH]; simpl; constructor; [|exact IH].
  unfold markSaleCreated.
  destruct (String.eqb_spec (Order.id o) (Order.id order)); [done|].
  by intros Heq.
Qed.

Lemma step_settled id s e :
  keepsSettled id e = true → settled id s → settled id (step s e).
Proof.
  unfold settled.
  destruct e as [tId tDate p d|removed|tId tDate d|id' u|rendered id'|tSale tId tDate p];
    cbn [step keepsSettled]; intros Hkeep Hset.
  - by rewrite addSale_orders.
  - unfold clearSales. by destruct removed.
  - rewrite addOrder_orders. apply Forall_app. split; [done|].
    constructor; [|constructor].
    apply negb_true_iff, String.eqb_neq in Hkeep. by intros Heq.
  - rewrite updateOrder_eq. simpl.
    destruct (Updates.saleCreated u) eqn:Hflag; [done|].
    destruct (Updates.id u) eqn:Hid; [done|].
    induction Hset as [|o l Ho _ IH]; constructor; [|exact IH].
    unfold updated. destruct (String.eqb _ _); [|done].
    simpl. by rewrite Hflag, Hid.
  - rewrite deleteOrder_orders. apply Forall_forall. intros o Hin.
    apply list_elem_of_filter in Hin as [_ Hin].
    rewrite Forall_forall in Hset. by apply Hset.
  - unfold runTimer. destruct (timers s) as [|order rest]; [done|].
    destruct (decide (Order.id order ∈ saleCreationInProgress s)) as [Hin|Hout].
    + by rewrite createSaleFromOrder_blocked.
    + rewrite createSaleFromOrder_eq by done. simpl.
      by apply settled_after_marking.
Qed.

Lemma run_settled id es s :
  forallb (keepsSettled id) es = true → settled id s → settled id (run es s).
Proof.
  revert s. induction es as [|e es IH]; intros s Hkeep Hset; [done|].
  simpl in Hkeep. apply andb_true_iff in Hkeep as [He Hes].
  simpl. apply IH; [done|]. by apply step_settled.
Qed.

(** X15.  Once the derivation of an order has run, every order with its id
    has saleCreated true, and this lasts through any events in which no
    update carries a saleCreated or an id field and no order is added under
    that id.  For as long as it lasts, no [updateOrder] of that id schedules
    a derivation, whatever the update carries: [updateOrder] looks at the
    flag before it merges. *)
Theorem no_derivation_is_scheduled_after_one_has_run
    s order rest es u tSale tId tDate persisted :
  reachable s →
  timers s = order :: rest →
  forallb (keepsSettled (Order.id order)) es = true →
  let s' := run es (runTimer tSale tId tDate persisted s) in
  settled (Order.id order) s'
  ∧ timers (updateOrder (Order.id order) u s') = timers s'.
Proof.
  intros Hreach Htimers Hkeep s'.
  assert (Hset : settled (Order.id order) s').
  { apply run_settled; [done|]. by eapply settled_by_timer. }
  split; [exact Hset|].
  rewrite updateOrder_eq. simpl.
  by rewrite (settled_not_scheduled _ u _ Hset), app_nil_r.
Qed.

(** ** What updateOrder schedules and logs *)

Section UpdateOrderEffects.

Context (id : string) (u : Updates.t).

Lemma scheduled_reason s o :
  o ∈ orders s → Forall (scheduledFor id u s) (scheduled id u o).
Proof.
  intros Hin. unfold scheduled.
  destruct (String.eqb_spec (Order.id o) id) as [Heq|Hne]; [|constructor].
  unfold statusChanges, needsSale, Status_eqb.
  destruct (Updates.status u) as [st|] eqn:Hst; [|constructor].
  simpl. repeat case_bool_decide; simpl; try constructor.
  destruct (not_flag (Order.saleCreated o)) eqn:Hflag; constructor; [|constructor].
  exists o. subst st. by repeat split.
Qed.

Lemma logged_reason s o :
  o ∈ orders s → Forall (loggedFor id u s) (logged id u o).
Proof.
  intros Hin. unfold logged.
  destruct (String.eqb_spec (Order.id o) id) as [Heq|Hne]; [|constructor].
  unfold statusChanges, Status_eqb.
  destruct (Updates.status u) as [st|] eqn:Hst; [|constructor].
  simpl. case_bool_decide; simpl; constructor; [|constructor].
  exists o, st. by repeat split.
Qed.

Lemma flat_map_reasons {A : Type} (f : Order.t → list A) (P : A → Prop)
    (l : list Order.t) :
  (∀ o, o ∈ l → Forall P (f o)) → Forall P (flat_map f l).
Proof.
  induction l as [|o l IH]; intros Hall; simpl; [constructor|].
  apply Forall_app. split.
  - apply Hall. by left.
  - apply IH. intros o' Hin. apply Hall. by right.
Qed.

(** X12.  [updateOrder] leaves the pending derivations in place and adds
    one only for this reason: the update carries the status completed, and
    an order with the id had another status and a falsy saleCreated; what is
    scheduled is that order as updated.  An update without status, or to any
    other status, or of an order already completed or already turned into a
    sale, schedules nothing. *)
Theorem updateOrder_schedules_only_new_completions s :
  ∃ new,
    timers (updateOrder id u s) = timers s ++ new
    ∧ Forall (scheduledFor id u s) new.
Proof.
  exists (flat_map (scheduled id u) (orders s)).
  rewrite updateOrder_eq. split; [done|].
  apply flat_map_reasons. intros o Hin. by apply scheduled_reason.
Qed.

(** X13.  [updateOrder] keeps the activity log and adds an entry only for
    this reason: the update carries a status, and an order with the id had
    another one; the entry is an ORDER_STATUS_UPDATED entry in the name of
    the order's creator, or of system when it has none.  An update that
    carries no status, or the status the order already has, logs nothing. *)
Theorem updateOrder_logs_only_status_changes s :
  ∃ new,
    activity (updateOrder id u s) = activity s ++ new
    ∧ Forall (loggedFor id u s) new.
Proof.
  exists (flat_map (logged id u) (orders s)).
  rewrite updateOrder_eq. split; [done|].
  apply flat_map_reasons. intros o Hin. by apply logged_reason.
Qed.

Lemma default_idem {A : Type} (a : A) (c : option A) :
  default (default a c) c = default a c.
Proof. by destruct c. Qed.

Lemma merge_idem o : merge (merge o u) u = merge o u.
Proof. unfold merge. simpl. by rewrite !default_idem. Qed.

Lemma second_pass o :
  updated id u (updated id u o) = updated id u o
  ∧ scheduled id u (updated id u o) = []
  ∧ logged id u (updated id u o) = [].
Proof.
  unfold updated, scheduled, logged.
  destruct (String.eqb_spec (Order.id o) id) as [Heq|Hne].
  - destruct (String.eqb_spec (Order.id (merge o u)) id) as [Heq'|Hne'];
      [|done].
    rewrite merge_idem.
    assert (Hsame : statusChanges u (merge o u) = false).
    { unfold statusChanges, Status_eqb. simpl.
      destruct (Updates.status u); [|done].
      simpl. by rewrite bool_decide_eq_true_2. }
    by rewrite Hsame.
  - by apply String.eqb_neq in Hne as ->.
Qed.

Lemma second_pass_list l :
  map (updated id u) (map (updated id u) l) = map (updated id u) l
  ∧ flat_map (scheduled id u) (map (updated id u) l) = []
  ∧ flat_map (logged id u) (map (updated id u) l) = [].
Proof.
  induction l as [|o l (IHm & IHs & IHl)]; [done|].
  destruct (second_pass o) as (Hm & Hs & Hl).
  simpl. by rewrite Hm, Hs, Hl, IHm, IHs, IHl.
Qed.

(** X11.  Calling [updateOrder] twice in a row with the same arguments
    leaves the state the first call left: the second call changes no order,
    logs nothing and schedules nothing.  Two identical updates to completed
    thus schedule one derivation. *)
Theorem updateOrder_twice_is_updateOrder_once s :
  updateOrder id u (updateOrder id u s) = updateOrder id u s.
Proof.
  rewrite (updateOrder_eq id u (updateOrder id u s)), !updateOrder_eq. simpl.
  destruct (second_pass_list (orders s)) as (-> & -> & ->).
  by rewrite !app_nil_r.
Qed.

End UpdateOrderEffects.

(** ** Deleting an order *)

Lemma find_order_absent id (l : list Order.t) :
  Forall (λ o, Order.id o ≠ id) l →
  List.find (λ o, String.eqb (Order.id o) id) l = None.
Proof.
  induction 1 as [|o l Hne _ IH]; [done|].
  simpl. by apply String.eqb_neq in Hne as ->.
Qed.

Lemma filter_keeps_other_ids id (l : list Order.t) :
  Forall (λ o, Order.id o ≠ id) l →
  filter (λ o, Order.id o ≠ id) l = l.
Proof.
  induction 1 as [|o l Hne _ IH]; [done|].
  rewrite filter_cons. case_decide; [|done]. by rewrite IH.
Qed.

Lemma deleteOrder_absent rendered outcome id s :
  Forall (λ o, Order.id o ≠ id) rendered →
  Forall (λ o, Order.id o ≠ id) (orders s) →
  deleteOrder rendered outcome id s = s.
Proof.
  intros Hstale Habsent. unfold deleteOrder.
  rewrite (find_order_absent _ _ Hstale).
  unfold setOrders. rewrite filter_other_ids, filter_keeps_other_ids by done.
  by destruct s.
Qed.

Lemma deleteOrder_leaves_none rendered id s :
  Forall (λ o, Order.id o ≠ id) (orders (deleteOrder rendered LogReturns id s)).
Proof.
  rewrite deleteOrder_orders. apply Forall_forall.
  intros o Hin. by apply list_elem_of_filter in Hin as [? _].
Qed.

(** X10.  [deleteOrder] with an id that neither the sequence its callback
    closes over nor the current sequence holds changes nothing at all.
    Hence a second [deleteOrder] of the same id that is called after a
    commit, its callback closing over the sequence the first call left,
    leaves exactly the state the first call left.  Called before a commit,
    its callback closing over the same sequence as the first, it leaves the
    same order sequence and logs ORDER_DELETED once more when that sequence
    held the id. *)
Theorem deleteOrder_again rendered id s :
  let s1 := deleteOrder rendered LogReturns id s in
  (∀ stale outcome,
     Forall (λ o, Order.id o ≠ id) stale →
     Forall (λ o, Order.id o ≠ id) (orders s) →
     deleteOrder stale outcome id s = s)
  ∧ (∀ outcome, deleteOrder (orders s1) outcome id s1 = s1)
  ∧ orders (deleteOrder rendered LogReturns id s1) = orders s1
  ∧ (holdsId id rendered →
     ∃ e, activity (deleteOrder rendered LogReturns id s1) = activity s1 ++ [e]
          ∧ eventType e = "ORDER_DELETED").
Proof.
  intros s1.
  pose proof (deleteOrder_leaves_none rendered id s) as Hnone. fold s1 in Hnone.
  split; [intros stale outcome; apply deleteOrder_absent|].
  split; [intros outcome; by apply deleteOrder_absent|].
  split; [rewrite deleteOrder_orders; by apply filter_keeps_other_ids|].
  intros Hheld. apply find_by_id_holds in Hheld as [found Hfound].
  unfold deleteOrder at 1. rewrite Hfound. simpl. eauto.
Qed.

(** X14.  When the log call returns, deleting the id that [addOrder] has
    just given removes the new order together with every older order of
    that id, whatever sequence the callback closes over: it leaves what
    deleting the id before the [addOrder] would have left, which is the
    previous sequence when the id was new. *)
Theorem deleteOrder_after_addOrder rendered rendered' tId tDate orderData s :
  orders (deleteOrder rendered LogReturns (orderIdAt tId)
            (addOrder tId tDate orderData s))
  = orders (deleteOrder rendered' LogReturns (orderIdAt tId) s)
  ∧ (Forall (λ o, Order.id o ≠ orderIdAt tId) (orders s) →
     orders (deleteOrder rendered LogReturns (orderIdAt tId)
               (addOrder tId tDate orderData s))
     = orders s).
Proof.
  assert (Hsame :
    orders (deleteOrder rendered LogReturns (orderIdAt tId)
              (addOrder tId tDate orderData s))
    = orders (deleteOrder rendered' LogReturns (orderIdAt tId) s)).
  { rewrite !deleteOrder_orders, addOrder_orders, filter_app.
    rewrite filter_cons. case_decide as Hkeep; [by destruct Hkeep|].
    by rewrite filter_nil, app_nil_r. }
  split; [exact Hsame|].
  intros Hnew. rewrite Hsame, deleteOrder_orders.
  by apply filter_keeps_other_ids.
Qed.

Lemma find_other_after_filter id id' (l : list Order.t) :
  id' ≠ id →
  List.find (λ o, String.eqb (Order.id o) id')
    (List.filter (λ o, negb (String.eqb (Order.id o) id)) l)
  = List.find (λ o, String.eqb (Order.id o) id') l.
Proof.
  intros Hne. induction l as [|o l IH]; [done|].
  simpl. destruct (String.eqb_spec (Order.id o) id) as [Heq|Hkeep]; simpl.
  - rewrite IH. destruct (String.eqb_spec (Order.id o) id'); [congruence|done].
  - by rewrite IH.
Qed.

(** X17.  After a [deleteOrder id] whose log call returns, whatever sequence
    its callback closes over, [getOrderById] finds nothing under [id], and
    under any other id it finds what it found before. *)
Theorem getOrderById_after_deleteOrder rendered id id' s :
  getOrderById id (deleteOrder rendered LogReturns id s) = None
  ∧ (id' ≠ id →
     getOrderById id' (deleteOrder rendered LogReturns id s)
     = getOrderById id' s).
Proof.
  split.
  - unfold getOrderById. apply find_order_absent, deleteOrder_leaves_none.
  - intros Hne. unfold getOrderById.
    rewrite deleteOrder_orders, <- filter_other_ids.
    by apply find_other_after_filter.
Qed.

(** ** The further properties at concrete inputs *)

Lemma pendingState_reachable : reachable pendingState.
Proof.
  apply (reachable_step exampleState
           (UpdateOrder (orderIdAt t0) (Updates.of_status completed))).
  apply exampleState_reachable.
Qed.



(** X5 at the state with one sale recorded. *)
Lemma failed_write_at_the_counter :
  sales (addSale (t0 + 1) (t0 + 1) false exampleSaleData counterState)
  = sales counterState ++ [newSale (t0 + 1) (t0 + 1) exampleSaleData]
  ∧ sales (reload (addSale (t0 + 1) (t0 + 1) false exampleSaleData
                           counterState) None)
    = sales counterState
  ∧ sales (clearSales false counterState) = []
  ∧ sales (reload (clearSales false counterState) None) = sales counterState.
Proof.
  apply storage_failure_loses_the_change. reflexivity.
Defined.

(** X6 from the state with one sale recorded. *)
Lemma counter_sale_is_kept :
  sales counterState
  `prefix_of` sales (run (completedTwice ++ twoTimersFire) counterState).
Proof.
  apply sales_are_append_only. reflexivity.
Defined.

(** X8 at the example order. *)
Lemma example_derivation_sets_the_flag :
  Forall2
    (λ o o', (Order.id o ≠ Order.id exampleOrder → o' = o)
             ∧ (Order.id o = Order.id exampleOrder →
                o' = merge o saleCreatedTrue
                ∧ shallowMerge o saleCreatedTrue o'))
    (orders exampleState)
    (orders (createSaleFromOrder (t0 + 5) (t0 + 5) (t0 + 5) true exampleOrder
                                 exampleState)).
Proof.
  apply derivation_only_sets_saleCreated. apply not_elem_of_empty.
Defined.

(** X9: the example order is deleted while its derivation is pending. *)
Lemma sale_of_a_deleted_order :
  sales (runTimer (t0 + 5) (t0 + 5) (t0 + 5) true
           (step pendingState
              (DeleteOrder (orders pendingState) (orderIdAt t0))))
  = sales pendingState
    ++ [derivedSale (t0 + 5) (t0 + 5) (t0 + 5)
          (merge exampleOrder (Updates.of_status completed))].
Proof.
  apply (pending_derivation_survives_order_calls
           pendingState (DeleteOrder (orders pendingState) (orderIdAt t0))
           (merge exampleOrder (Updates.of_status completed)) []).
  - apply pendingState_reachable.
  - by vm_compute.
  - reflexivity.
Defined.

(** X15: after its sale the example order is reopened, another sale is
    recorded, and the order is completed again. *)
Lemma example_order_completed_again :
  let s' :=
    run [ UpdateOrder (orderIdAt t0) (Updates.of_status processing);
          AddSale (t0 + 7) (t0 + 7) true exampleSaleData ]
        (runTimer (t0 + 5) (t0 + 5) (t0 + 5) true pendingState) in
  settled (Order.id (merge exampleOrder (Updates.of_status completed))) s'
  ∧ timers (updateOrder
              (Order.id (merge exampleOrder (Updates.of_status completed)))
              (Updates.of_status completed) s') = timers s'.
Proof.
  apply (no_derivation_is_scheduled_after_one_has_run
           pendingState (merge exampleOrder (Updates.of_status completed)) []).
  - apply pendingState_reachable.
  - by vm_compute.
  - by vm_compute.
Defined.

(** X16 at the example state. *)
Lemma example_derivation_runs :
  saleCreationInProgress exampleState = ∅
  ∧ sales (createSaleFromOrder (t0 + 5) (t0 + 5) (t0 + 5) true exampleOrder
                               exampleState)
    = sales exampleState ++ [derivedSale (t0 + 5) (t0 + 5) (t0 + 5) exampleOrder]
  ∧ saleCreationInProgress
      (createSaleFromOrder (t0 + 5) (t0 + 5) (t0 + 5) true exampleOrder
                           exampleState) = ∅.
Proof.
  apply derivation_is_never_blocked. apply exampleState_reachable.
Defined.

(** ** Looking an order up after an update *)

Section LookupAfterUpdate.

Context (id : string) (u : Updates.t).

Lemma updated_keeps_id o :
  Updates.id u = None → Order.id (updated id u o) = Order.id o.
Proof.
  intros Hnone. unfold updated.
  destruct (String.eqb (Order.id o) id); [|done].
  simpl. by rewrite Hnone.
Qed.

Lemma find_updated id' (l : list Order.t) :
  Updates.id u = None →
  List.find (λ o, String.eqb (Order.id o) id') (map (updated id u) l)
  = updated id u <$> List.find (λ o, String.eqb (Order.id o) id') l.
Proof.
  intros Hnone. induction l as [|o l IH]; [done|].
  simpl. rewrite (updated_keeps_id o Hnone).
  by destruct (String.eqb (Order.id o) id').
Qed.

(** X18.  When the update carries no id, [getOrderById] after
    [updateOrder id u] finds under [id] the order it found before, merged
    with [u], and under any other id exactly what it found before. *)
Theorem getOrderById_after_updateOrder id' s :
  Updates.id u = None →
  getOrderById id (updateOrder id u s)
  = (λ o, merge o u) <$> getOrderById id s
  ∧ (id' ≠ id →
     getOrderById id' (updateOrder id u s) = getOrderById id' s).
Proof.
  intros Hnone. unfold getOrderById. rewrite updateOrder_eq. simpl.
  rewrite !find_updated by done. split.
  - destruct (List.find _ (orders s)) as [o|] eqn:Hfind; [|done].
    apply find_by_id_Some in Hfind as [_ Hid].
    simpl. by rewrite updated_match.
  - intros Hne.
    destruct (List.find _ (orders s)) as [o|] eqn:Hfind; [|done].
    apply find_by_id_Some in Hfind as [_ Hid].
    simpl. rewrite updated_other; [done|congruence].
Qed.

(** X19.  When the update carries another id, the orders that had [id] are
    renamed: after [updateOrder id u], [getOrderById] finds nothing under
    [id]. *)
Theorem updateOrder_can_rename id2 s :
  Updates.id u = Some id2 →
  id2 ≠ id →
  getOrderById id (updateOrder id u s) = None
  ∧ Forall (λ o, Order.id o ≠ id) (orders (updateOrder id u s)).
Proof.
  intros Hid Hne.
  assert (Hall : Forall (λ o, Order.id o ≠ id) (orders (updateOrder id u s))).
  { rewrite updateOrder_eq. simpl. apply Forall_fmap, Forall_forall.
    intros o _. unfold updated. simpl.
    destruct (String.eqb_spec (Order.id o) id) as [Heq|Hother]; [|done].
    simpl. by rewrite Hid. }
  split; [|exact Hall].
  unfold getOrderById. by apply find_order_absent.
Qed.

End LookupAfterUpdate.

(** ** What is pending *)

Lemma scheduled_is_completed id u o :
  Forall (λ m, Order.status m = completed) (scheduled id u o).
Proof.
  unfold scheduled, needsSale, Status_eqb.
  destruct (String.eqb (Order.id o) id); [|constructor].
  destruct (statusChanges u o); [|constructor].
  destruct (Updates.status u) as [st|] eqn:Hst; [|constructor].
  simpl. case_bool_decide as Hdone; [|constructor].
  destruct (not_flag (Order.saleCreated o)); constructor; [|constructor].
  simpl. by rewrite Hst, Hdone.
Qed.

Lemma createSaleFromOrder_timers tSale tId tDate persisted order s :
  timers (createSaleFromOrder tSale tId tDate persisted order s) = timers s.
Proof.
  destruct (decide (Order.id order ∈ saleCreationInProgress s)) as [Hin|Hout].
  - by rewrite createSaleFromOrder_blocked.
  - by rewrite createSaleFromOrder_eq.
Qed.

Lemma step_pending_completed s e :
  Forall (λ m, Order.status m = completed) (timers s) →
  Forall (λ m, Order.status m = completed) (timers (step s e)).
Proof.
  intros Hall.
  destruct e as [tId tDate p d|removed|tId tDate d|id u|rendered id|tSale tId tDate p];
    cbn [step].
  - by rewrite addSale_timers.
  - unfold clearSales. by destruct removed.
  - done.
  - rewrite updateOrder_eq. simpl. apply Forall_app. split; [done|].
    induction (orders s) as [|o l IH]; simpl; [constructor|].
    apply Forall_app. split; [apply scheduled_is_completed | exact IH].
  - unfold deleteOrder. by destruct (List.find _ _).
  - unfold runTimer. destruct (timers s) as [|order rest] eqn:Htimers.
    + by rewrite Htimers.
    + rewrite createSaleFromOrder_timers. simpl.
      by apply Forall_cons in Hall as [_ Hrest].
Qed.

(** X20.  In every state the application can reach, each pending
    derivation is for a snapshot whose status is completed: nothing else is
    ever scheduled, and a timer that fires removes only itself from the
    queue. *)
Theorem only_completed_orders_are_pending s :
  reachable s →
  Forall (λ m, Order.status m = completed) (timers s).
Proof.
  induction 1 as [savedSales savedOrders|s e _ IH].
  - constructor.
  - by apply step_pending_completed.
Qed.

(** X18 at the example order. *)
Lemma example_order_found_after_update :
  getOrderById (orderIdAt t0)
    (updateOrder (orderIdAt t0) (Updates.of_status processing) exampleState)
  = (λ o, merge o (Updates.of_status processing))
      <$> getOrderById (orderIdAt t0) exampleState
  ∧ ("ORD-0" ≠ orderIdAt t0 →
     getOrderById "ORD-0"
       (updateOrder (orderIdAt t0) (Updates.of_status processing) exampleState)
     = getOrderById "ORD-0" exampleState).
Proof.
  apply getOrderById_after_updateOrder. reflexivity.
Defined.

(** X19 at the example order, renamed. *)
Lemma example_order_renamed :
  getOrderById (orderIdAt t0) (updateOrder (orderIdAt t0) renameUpdate exampleState)
  = None
  ∧ Forall (λ o, Order.id o ≠ orderIdAt t0)
           (orders (updateOrder (orderIdAt t0) renameUpdate exampleState)).
Proof.
  apply (updateOrder_can_rename (orderIdAt t0) renameUpdate "ORD-0").
  - reflexivity.
  - differ_by_evaluation.
Defined.

(** X20 while the example order waits for its timer. *)
Lemma example_pending_is_completed :
  Forall (λ m, Order.status m = completed) (timers pendingState).
Proof.
  apply only_completed_orders_are_pending, pendingState_reachable.
Defined.
